(** * The zamia/HAL Prolog engine: resolution runtime and clause database

    A shallow embedding of [halprolog/runtime.py] (arithmetic evaluator,
    unifier, goal-queue interpreter) and of [zamiaprolog/logicdb.py]
    (clause store and assertz overlay), with the properties stated about
    them.

    Python objects that the code mutates in place (the environment
    dictionaries) live in an explicit store and are referred to by
    location; [copy.deepcopy] allocates.  Exceptions and running out of
    fuel are results; the store survives both. *)

From stdpp Require Import gmap strings list.

#[local] Set Warnings "-register-all".

(** ** Numbers

    [NumberLiteral.f] holds a Python number.  The operators of
    [runtime.py] only use [-a], [a + b], [a - b], [a * b], [a / b],
    [a % b] and [==] on it, so the payload type is a parameter with
    these operations.  [/] and [%] raise [ZeroDivisionError] on a zero
    divisor: they are partial. *)

Class PyNumber (num : Type) := {
  num_neg : num -> num;
  num_add : num -> num -> num;
  num_sub : num -> num -> num;
  num_mul : num -> num -> num;
  num_div : num -> num -> option num;
  num_mod : num -> num -> option num;
  num_eqb : num -> num -> bool
}.

(** Python 2 integers: [/] is floor division and [%] takes the sign of
    the divisor, as [Z.div] and [Z.modulo] do. *)
#[export] Instance Z_PyNumber : PyNumber Z := {|
  num_neg := Z.opp;
  num_add := Z.add;
  num_sub := Z.sub;
  num_mul := Z.mul;
  num_div := fun a b => if Z.eqb b 0 then None else Some (Z.div a b);
  num_mod := fun a b => if Z.eqb b 0 then None else Some (Z.modulo a b);
  num_eqb := Z.eqb
|}.

(** ** Results: a value, a raised exception, or fuel exhausted *)

Inductive PyExn : Type :=
| PrologRuntimeError (value : string)
| ZeroDivisionError
| AttributeError (attr : string)
| IndexError
| PdbTrap
| BuiltinRaised (what : string).

Inductive Res (A : Type) : Type :=
| Ok (a : A)
| Raise (e : PyExn)
| Timeout.
Arguments Ok {A} a.
Arguments Raise {A} e.
Arguments Timeout {A}.

Definition res_bind {A B} (m : Res A) (k : A -> Res B) : Res B :=
  match m with
  | Ok a => k a
  | Raise e => Raise e
  | Timeout => Timeout
  end.

Declare Scope res_scope.
Delimit Scope res_scope with res.
Notation "x <-! m ; k" := (res_bind m (fun x => k))
  (at level 100, m at next level, right associativity) : res_scope.

(** A computation on a store of type [S]: the store is threaded through
    and survives an exception. *)
Definition M (S A : Type) : Type := S -> Res A * S.

Definition m_ret {S A} (a : A) : M S A := fun st => (Ok a, st).
Definition m_lift {S A} (r : Res A) : M S A := fun st => (r, st).
Definition m_bind {S A B} (m : M S A) (k : A -> M S B) : M S B :=
  fun st =>
    match m st with
    | (Ok a, st') => k a st'
    | (Raise e, st') => (Raise e, st')
    | (Timeout, st') => (Timeout, st')
    end.

Declare Scope m_scope.
Delimit Scope m_scope with M.
Notation "x <~ m ; k" := (m_bind m (fun x => k))
  (at level 100, m at next level, right associativity) : m_scope.
Notation "m ;~ k" := (m_bind m (fun _ => k))
  (at level 100, right associativity) : m_scope.

(** [l.pop()]: the last element of a Python list and the list without
    it. *)
Fixpoint pop {A} (l : list A) : option (A * list A) :=
  match l with
  | [] => None
  | x :: l' =>
      match pop l' with
      | None => Some (x, [])
      | Some (y, r) => Some (y, x :: r)
      end
  end.

Section Engine.

Context {num : Type} `{PyNumber num}.

(** ** Terms (spec section 3)

    Modelled from the spec: the term classes of the [logic] module that
    [runtime.py] imports are absent; section 3 gives the five variants
    and section 4.1 their structural equality.  The attributes are the
    ones [runtime.py] reads: [name], [args], [f].  The class [Variable]
    is spelled [Var], Variable being a reserved word here. *)

Inductive Term : Type :=
| Var (name : string)
| NumberLiteral (f : num)
| StringLiteral (s : string)
| ListLiteral (l : list Term)
| Predicate (name : string) (args : list Term).

(** [isinstance(t, Literal)] *)
Definition is_Literal (t : Term) : bool :=
  match t with
  | NumberLiteral _ | StringLiteral _ | ListLiteral _ => true
  | _ => false
  end.

(** [t.name]: variables and predicates carry one. *)
Definition get_name (t : Term) : Res string :=
  match t with
  | Var n | Predicate n _ => Ok n
  | _ => Raise (AttributeError "name")
  end.

(** [t.args] *)
Definition get_args (t : Term) : Res (list Term) :=
  match t with
  | Predicate _ a => Ok a
  | _ => Raise (AttributeError "args")
  end.

(** [l[i]] on a Python list, for [i >= 0]. *)
Definition py_index {A} (l : list A) (i : nat) : Res A :=
  match l !! i with
  | Some x => Ok x
  | None => Raise IndexError
  end.

(** Modelled from the spec: [==] on terms (section 4.1), variants and
    leaves compared recursively. *)
Fixpoint term_eqb (a b : Term) {struct a} : bool :=
  let fix list_eqb (xs ys : list Term) {struct xs} : bool :=
    match xs, ys with
    | [], [] => true
    | x :: xs', y :: ys' => term_eqb x y && list_eqb xs' ys'
    | _, _ => false
    end in
  match a, b with
  | Var x, Var y => bool_decide (x = y)
  | NumberLiteral f, NumberLiteral g => num_eqb f g
  | StringLiteral s, StringLiteral t => bool_decide (s = t)
  | ListLiteral l1, ListLiteral l2 => list_eqb l1 l2
  | Predicate n1 a1, Predicate n2 a2 => bool_decide (n1 = n2) && list_eqb a1 a2
  | _, _ => false
  end.

(** [x == y] where either side may be [None]. *)
Definition value_eqb (x y : option Term) : bool :=
  match x, y with
  | None, None => true
  | Some a, Some b => term_eqb a b
  | _, _ => false
  end.

(** ** Environments and the store of environment objects

    An environment is a dict from variable names to values; the code
    also stores [None] as a value ([g.env[...] = ans] with [ans] the
    evaluator's [None]), so a value is an [option Term]. *)

Abbreviation Env := (gmap string (option Term)) (only parsing).

(** [env.get(name)] followed by the truth test [if not ans]: a missing
    key and a [None] value both read as [None].  No term class defines
    its own truth value, so every term is true. *)
Definition env_get (env : Env) (name : string) : option Term :=
  match env !! name with
  | Some (Some t) => Some t
  | _ => None
  end.

Abbreviation loc := nat (only parsing).
Abbreviation Store := (list Env) (only parsing).

Definition read (st : Store) (l : loc) : Env := default ∅ (st !! l).
Definition write (l : loc) (e : Env) (st : Store) : Store := <[l := e]> st.
(** [copy.deepcopy(e)], [{}]: a new object. *)
Definition alloc (e : Env) (st : Store) : loc * Store := (List.length st, st ++ [e]).

(** ** Clauses (spec section 3) *)

Record Clause : Type := mkClause {
  head_name : string;
  head_args : list Term;
  body : option Term
}.

Definition head (c : Clause) : Term := Predicate (head_name c) (head_args c).

(** ** Goals

    [class PrologGoal]: [head], [terms], [parent], [env], [inx].  The
    environment is an object of the store. *)

Inductive PrologGoal : Type :=
  mkGoal (g_head : Term) (g_terms : list Term) (g_parent : option PrologGoal)
         (g_env : loc) (g_inx : nat).

Definition g_head (g : PrologGoal) := let 'mkGoal h _ _ _ _ := g in h.
Definition g_terms (g : PrologGoal) := let 'mkGoal _ t _ _ _ := g in t.
Definition g_parent (g : PrologGoal) := let 'mkGoal _ _ p _ _ := g in p.
Definition g_env (g : PrologGoal) := let 'mkGoal _ _ _ e _ := g in e.
Definition g_inx (g : PrologGoal) := let 'mkGoal _ _ _ _ i := g in i.

(** [g.inx = g.inx + 1] *)
Definition advance (g : PrologGoal) : PrologGoal :=
  mkGoal (g_head g) (g_terms g) (g_parent g) (g_env g) (g_inx g + 1).

(** [PrologGoal(head, terms, parent, env)]: the constructor deep-copies
    [env] and starts at the first subgoal. *)
Definition PrologGoal_init (hd : Term) (terms : list Term)
    (parent : option PrologGoal) (env : Env) (st : Store) : PrologGoal * Store :=
  let '(l, st') := alloc env st in
  (mkGoal hd terms parent l 0, st').

(** [copy.deepcopy(goal)]: the goal, its ancestors and all their
    environments are copied. *)
Fixpoint deepcopy_goal (g : PrologGoal) (st : Store) : PrologGoal * Store :=
  let 'mkGoal h ts p e i := g in
  let '(p', st1) :=
    match p with
    | None => (None, st)
    | Some pg => let '(pg', s) := deepcopy_goal pg st in (Some pg', s)
    end in
  let '(e', st2) := alloc (read st1 e) st1 in
  (mkGoal h ts p' e' i, st2).

(** ** The clause database ([zamiaprolog/logicdb.py])

    Modelled from the spec: the ORM classes of the [model] module and the
    JSON codec of [logic] are absent.  A row has the four columns
    [LogicDB.store] fills; section 6 makes the codec a round-trip stable
    bijection, so the [prolog] column is represented by the clause it
    decodes to.  The session is the list of rows in insertion order,
    which is the order an unordered query returns them in. *)

Record ORMClause : Type := mkORMClause {
  orm_module : string;
  orm_arity : nat;
  orm_head : string;
  orm_prolog : Clause
}.

Abbreviation LogicDB := (list ORMClause) (only parsing).

Record LogicDBOverlay : Type := mkOverlay {
  d_assertz : gmap string (list Clause);
  d_retracted : gmap string (list Clause)
}.

(** [LogicDBOverlay()] *)
Definition LogicDBOverlay_init : LogicDBOverlay :=
  {| d_assertz := ∅; d_retracted := ∅ |}.

(** [LogicDB.store]: [session.add] of a new row. *)
Definition LogicDB_store (db : LogicDB) (module : string) (clause : Clause) : LogicDB :=
  db ++ [ {| orm_module := module;
             orm_arity := List.length (head_args clause);
             orm_head := head_name clause;
             orm_prolog := clause |} ].

(** [LogicDBOverlay.assertz] *)
Definition LogicDBOverlay_assertz (ov : LogicDBOverlay) (clause : Clause) : LogicDBOverlay :=
  let name := head_name clause in
  match d_assertz ov !! name with
  | Some cs => {| d_assertz := <[name := cs ++ [clause]]> (d_assertz ov);
                  d_retracted := d_retracted ov |}
  | None => {| d_assertz := <[name := [clause]]> (d_assertz ov);
               d_retracted := d_retracted ov |}
  end.

(** [LogicDBOverlay.do_filter]: a retracted name stops in the debugger;
    otherwise the overlay's clauses for [name] are appended to [res]. *)
Definition LogicDBOverlay_do_filter (ov : LogicDBOverlay) (name : string)
    (res : list Clause) : Res (list Clause) :=
  match d_retracted ov !! name with
  | Some _ => Raise PdbTrap
  | None =>
      match d_assertz ov !! name with
      | Some cs => Ok (res ++ cs)
      | None => Ok res
      end
  end.

(** [LogicDB.lookup]: the rows whose [head] column is [name], decoded,
    then filtered through the overlay when one is given.  The database
    after the call is returned with the result. *)
Definition LogicDB_lookup (db : LogicDB) (name : string)
    (overlay : option LogicDBOverlay) : Res (list Clause) * LogicDB :=
  let res := orm_prolog <$> filter (fun ormc => orm_head ormc = name) db in
  match overlay with
  | Some ov => (LogicDBOverlay_do_filter ov name res, db)
  | None => (Ok res, db)
  end.

(** ** The runtime object

    Modelled from the spec: the [builtins] module is absent.  A built-in
    predicate is called with the goal and the runtime, answers a boolean
    and may mutate [goal.env] (section 4.5); a built-in function is
    called with the term, the environment and the runtime, through which
    it evaluates its arguments (section 4.2). *)

Definition Evaluator : Type := Term -> Env -> Res (option Term).
Definition BuiltinFunction : Type := Term -> Env -> Evaluator -> Res (option Term).
Definition BuiltinPredicate : Type := PrologGoal -> Store -> Res bool * Env.

Record PrologRuntime : Type := mkRuntime {
  db : LogicDB;
  builtins : gmap string BuiltinPredicate;
  builtin_functions : gmap string BuiltinFunction
}.

Definition register_builtin (name : string) (builtin : BuiltinPredicate)
    (self : PrologRuntime) : PrologRuntime :=
  {| db := db self; builtins := <[name := builtin]> (builtins self);
     builtin_functions := builtin_functions self |}.

Definition register_builtin_function (name : string) (fn : BuiltinFunction)
    (self : PrologRuntime) : PrologRuntime :=
  {| db := db self; builtins := builtins self;
     builtin_functions := <[name := fn]> (builtin_functions self) |}.

(** The functions [PrologRuntime.__init__] takes from [builtins]. *)
Record BuiltinsModule : Type := mkBuiltins {
  builtin_larger : BuiltinPredicate;
  builtin_smaller : BuiltinPredicate;
  builtin_smaller_or_equal : BuiltinPredicate;
  builtin_larger_or_equal : BuiltinPredicate;
  builtin_non_equal : BuiltinPredicate;
  builtin_equal : BuiltinPredicate;
  builtin_sub_string : BuiltinPredicate;
  builtin_date_time_stamp : BuiltinPredicate;
  builtin_stamp_date_time : BuiltinPredicate;
  builtin_get_time : BuiltinPredicate;
  builtin_write : BuiltinPredicate;
  builtin_nl : BuiltinPredicate;
  builtin_list_contains : BuiltinPredicate;
  builtin_format_str : BuiltinFunction;
  builtin_isoformat : BuiltinFunction;
  builtin_list_max : BuiltinFunction;
  builtin_list_min : BuiltinFunction;
  builtin_list_sum : BuiltinFunction;
  builtin_list_avg : BuiltinFunction
}.

(** [PrologRuntime.__init__] *)
Definition PrologRuntime_init (B : BuiltinsModule) (d : LogicDB) : PrologRuntime :=
  let self := {| db := d; builtins := ∅; builtin_functions := ∅ |} in
  let self := register_builtin ">" (builtin_larger B) self in
  let self := register_builtin "<" (builtin_smaller B) self in
  let self := register_builtin "=<" (builtin_smaller_or_equal B) self in
  let self := register_builtin ">=" (builtin_larger_or_equal B) self in
  let self := register_builtin "\=" (builtin_non_equal B) self in
  let self := register_builtin "=" (builtin_equal B) self in
  let self := register_builtin "sub_string" (builtin_sub_string B) self in
  let self := register_builtin "date_time_stamp" (builtin_date_time_stamp B) self in
  let self := register_builtin "stamp_date_time" (builtin_stamp_date_time B) self in
  let self := register_builtin "get_time" (builtin_get_time B) self in
  let self := register_builtin "write" (builtin_write B) self in
  let self := register_builtin "nl" (builtin_nl B) self in
  let self := register_builtin "list_contains" (builtin_list_contains B) self in
  let self := register_builtin_function "format_str" (builtin_format_str B) self in
  let self := register_builtin_function "isoformat" (builtin_isoformat B) self in
  let self := register_builtin_function "list_max" (builtin_list_max B) self in
  let self := register_builtin_function "list_min" (builtin_list_min B) self in
  let self := register_builtin_function "list_sum" (builtin_list_sum B) self in
  register_builtin_function "list_avg" (builtin_list_avg B) self.

(** ** Arithmetic operators *)

Definition prolog_unary_plus (a : num) : Term := NumberLiteral a.
Definition prolog_unary_minus (a : num) : Term := NumberLiteral (num_neg a).

Definition unary_operators (name : string) : option (num -> Term) :=
  if decide (name = "+") then Some prolog_unary_plus
  else if decide (name = "-") then Some prolog_unary_minus
  else None.

Definition prolog_binary_add (a b : num) : Res Term := Ok (NumberLiteral (num_add a b)).
Definition prolog_binary_sub (a b : num) : Res Term := Ok (NumberLiteral (num_sub a b)).
Definition prolog_binary_mul (a b : num) : Res Term := Ok (NumberLiteral (num_mul a b)).
Definition prolog_binary_div (a b : num) : Res Term :=
  match num_div a b with
  | Some q => Ok (NumberLiteral q)
  | None => Raise ZeroDivisionError
  end.
Definition prolog_binary_mod (a b : num) : Res Term :=
  match num_mod a b with
  | Some r => Ok (NumberLiteral r)
  | None => Raise ZeroDivisionError
  end.

Definition binary_operators (name : string) : option (num -> num -> Res Term) :=
  if decide (name = "+") then Some prolog_binary_add
  else if decide (name = "-") then Some prolog_binary_sub
  else if decide (name = "*") then Some prolog_binary_mul
  else if decide (name = "/") then Some prolog_binary_div
  else if decide (name = "mod") then Some prolog_binary_mod
  else None.

(** ** [PrologRuntime.prolog_eval]

    The loop over [term.args] of the last case. *)
Fixpoint eval_args (ev : Term -> Res (option Term)) (todo : list Term)
    (args : list Term) : Res (option (list Term)) :=
  match todo with
  | [] => Ok (Some args)
  | arg :: todo' =>
      match ev arg with
      | Ok (Some a) => eval_args ev todo' (args ++ [a])
      | Ok None => Ok None
      | Raise e => Raise e
      | Timeout => Timeout
      end
  end.

Fixpoint prolog_eval (fuel : nat) (self : PrologRuntime) (term : Term) (env : Env)
    {struct fuel} : Res (option Term) :=
  match fuel with
  | 0 => Timeout
  | S fuel' =>
      let rest :=
        match term with
        | NumberLiteral _ | StringLiteral _ | ListLiteral _ => Ok (Some term)
        | Var name =>
            match env_get env name with
            | None => Ok None
            | Some ans => prolog_eval fuel' self ans env
            end
        | Predicate name targs =>
            (args <-! eval_args (fun arg => prolog_eval fuel' self arg env) targs [];
             match args with
             | Some args => Ok (Some (Predicate name args))
             | None => Ok None
             end)%res
        end in
      match term with
      | Predicate name targs =>
          (* unary builtin ? *)
          match (if decide (List.length targs = 1) then unary_operators name else None) with
          | Some op =>
              (a0 <-! py_index targs 0;
               a <-! prolog_eval fuel' self a0 env;
               match a with
               | Some (NumberLiteral a) => Ok (Some (op a))
               | _ => Ok None
               end)%res
          | None =>
              (* binary builtin ? *)
              match binary_operators name with
              | Some op =>
                  if decide (List.length targs <> 2) then Ok None
                  else
                    (a0 <-! py_index targs 0;
                     a <-! prolog_eval fuel' self a0 env;
                     match a with
                     | Some (NumberLiteral a) =>
                         a1 <-! py_index targs 1;
                         b <-! prolog_eval fuel' self a1 env;
                         match b with
                         | Some (NumberLiteral b) => v <-! op a b; Ok (Some v)
                         | _ => Ok None
                         end
                     | _ => Ok None
                     end)%res
              | None =>
                  (* engine-provided builtin function ? *)
                  match builtin_functions self !! name with
                  | Some fn => fn term env (prolog_eval fuel' self)
                  | None => rest
                  end
              end
          end
      | _ => rest
      end
  end.

(** ** [PrologRuntime._unify]

    The environments are objects: [srcEnv] is read, [destEnv] is
    written.  The result comes with the store the call leaves. *)

(** The loop [for i in range(len(src.args))] over the scratch copy. *)
Fixpoint unify_args (u : Term -> Term -> Store -> Res bool * Store)
    (sargs dargs : list Term) (st : Store) : Res bool * Store :=
  match sargs, dargs with
  | s :: sargs', d :: dargs' =>
      match u s d st with
      | (Ok true, st') => unify_args u sargs' dargs' st'
      | (r, st') => (r, st')
      end
  | _, _ => (Ok true, st)
  end.

Fixpoint _unify (fuel : nat) (self : PrologRuntime) (src : Term) (srcEnv : loc)
    (dest : Term) (destEnv : loc) (st : Store) {struct fuel} : Res bool * Store :=
  match fuel with
  | 0 => (Timeout, st)
  | S fuel' =>
      match src with
      | Var _ =>
          match prolog_eval fuel' self src (read st srcEnv) with
          | Ok None => (Ok true, st)
          | Ok (Some srcVal) => _unify fuel' self srcVal srcEnv dest destEnv st
          | Raise e => (Raise e, st)
          | Timeout => (Timeout, st)
          end
      | _ =>
          match dest with
          | Var dname =>
              match prolog_eval fuel' self dest (read st destEnv) with
              | Ok (Some destVal) => _unify fuel' self src srcEnv destVal destEnv st
              | Ok None =>
                  match prolog_eval fuel' self src (read st srcEnv) with
                  | Ok v => (Ok true, write destEnv (<[dname := v]> (read st destEnv)) st)
                  | Raise e => (Raise e, st)
                  | Timeout => (Timeout, st)
                  end
              | Raise e => (Raise e, st)
              | Timeout => (Timeout, st)
              end
          | _ =>
              if is_Literal src then
                match prolog_eval fuel' self src (read st srcEnv) with
                | Ok srcVal =>
                    match prolog_eval fuel' self dest (read st destEnv) with
                    | Ok destVal => (Ok (value_eqb srcVal destVal), st)
                    | Raise e => (Raise e, st)
                    | Timeout => (Timeout, st)
                    end
                | Raise e => (Raise e, st)
                | Timeout => (Timeout, st)
                end
              else if is_Literal dest then (Ok false, st)
              else
                match src, dest with
                | Predicate sname sargs, Predicate dname dargs =>
                    if decide (sname <> dname) then (Ok false, st)
                    else if decide (List.length sargs <> List.length dargs) then (Ok false, st)
                    else
                      let '(dde, st1) := alloc (read st destEnv) st in
                      match unify_args (fun s d => _unify fuel' self s srcEnv d dde)
                                       sargs dargs st1 with
                      | (Ok true, st2) =>
                          (Ok true, write destEnv (read st2 dde ∪ read st2 destEnv) st2)
                      | (r, st2) => (r, st2)
                      end
                | _, _ => (Raise (AttributeError "name"), st)
                end
          end
      end
  end.

(** ** [PrologRuntime.search] *)

Definition m_read (l : loc) : M Store Env := fun st => (Ok (read st l), st).
Definition m_write (l : loc) (e : Env) : M Store unit := fun st => (Ok tt, write l e st).
Definition m_new_goal (hd : Term) (terms : list Term) (parent : option PrologGoal)
    (env : Env) : M Store PrologGoal :=
  fun st => let '(c, st') := PrologGoal_init hd terms parent env st in (Ok c, st').
Definition m_deepcopy_goal (g : PrologGoal) : M Store PrologGoal :=
  fun st => let '(c, st') := deepcopy_goal g st in (Ok c, st').

(** The goals a candidate clause gives rise to: one per arm of a
    top-level [or], otherwise one. Each is a [PrologGoal(clause.head,
    ..., g)], whose environment is a new copy of the empty default. *)
Fixpoint or_children (hd : Term) (g : PrologGoal) (subgoals : list Term)
    (children : list PrologGoal) : M Store (list PrologGoal) :=
  match subgoals with
  | [] => m_ret children
  | subgoal :: subgoals' =>
      (sname <~ m_lift (get_name subgoal);
       child <~ (if decide (sname = "and")
                 then (sargs <~ m_lift (get_args subgoal);
                       m_new_goal hd sargs (Some g) ∅)
                 else m_new_goal hd [subgoal] (Some g) ∅);
       or_children hd g subgoals' (children ++ [child]))%M
  end.

Definition make_children (clause : Clause) (g : PrologGoal) : M Store (list PrologGoal) :=
  match body clause with
  | Some b =>
      (bname <~ m_lift (get_name b);
       if decide (bname = "or") then
         (bargs <~ m_lift (get_args b);
          or_children (head clause) g bargs [])
       else if decide (bname = "and") then
         (bargs <~ m_lift (get_args b);
          child <~ m_new_goal (head clause) bargs (Some g) ∅;
          m_ret [child])
       else
         (child <~ m_new_goal (head clause) [b] (Some g) ∅;
          m_ret [child]))%M
  | None =>
      (child <~ m_new_goal (head clause) [] (Some g) ∅;
       m_ret [child])%M
  end.

(** [for child in children]: unify the subgoal with the clause head in
    the child's environment; a child that unifies goes to the front of
    the queue. *)
Fixpoint queue_children (fuel : nat) (self : PrologRuntime) (pred : Term)
    (g : PrologGoal) (clause : Clause) (children : list PrologGoal)
    (queue : list PrologGoal) : M Store (list PrologGoal) :=
  match children with
  | [] => m_ret queue
  | child :: children' =>
      (ans <~ _unify fuel self pred (g_env g) (head clause) (g_env child);
       queue_children fuel self pred g clause children'
         (if ans : bool then child :: queue else queue))%M
  end.

(** [for clause in clauses] *)
Fixpoint try_clauses (fuel : nat) (self : PrologRuntime) (pred : Term)
    (g : PrologGoal) (clauses : list Clause) (queue : list PrologGoal)
    : M Store (list PrologGoal) :=
  match clauses with
  | [] => m_ret queue
  | clause :: clauses' =>
      (pargs <~ m_lift (get_args pred);
       if decide (List.length (head_args clause) <> List.length pargs) then
         try_clauses fuel self pred g clauses' queue
       else
         (children <~ make_children clause g;
          queue' <~ queue_children fuel self pred g clause children queue;
          try_clauses fuel self pred g clauses' queue'))%M
  end.

(** One turn of the [while queue] loop, after [g = queue.pop()]:
    [queue] is what is left of the queue; the result is the queue and
    the solutions at the end of the turn. *)
Definition step (fuel : nat) (self : PrologRuntime) (g : PrologGoal)
    (queue : list PrologGoal) (solutions : list loc)
    : M Store (list PrologGoal * list loc) :=
  if decide (List.length (g_terms g) <= g_inx g) then
    (* Is this one finished? *)
    match g_parent g with
    | None => m_ret (queue, solutions ++ [g_env g])
    | Some gp =>
        (parent <~ m_deepcopy_goal gp;
         pterm <~ m_lift (py_index (g_terms parent) (g_inx parent));
         _unify fuel self (g_head g) (g_env g) pterm (g_env parent) ;~
         m_ret (advance parent :: queue, solutions))%M
    end
  else
    (pred <~ m_lift (py_index (g_terms g) (g_inx g));
     name <~ m_lift (get_name pred);
     if decide (name ∈ ["is"; "cut"; "fail"]) then
       if decide (name = "is") then
         (pargs <~ m_lift (get_args pred);
          a0 <~ m_lift (py_index pargs 0);
          env <~ m_read (g_env g);
          ques <~ m_lift (prolog_eval fuel self a0 env);
          a1 <~ m_lift (py_index pargs 1);
          ans <~ m_lift (prolog_eval fuel self a1 env);
          match ques with
          | None =>
              (vname <~ m_lift (get_name a0);
               m_write (g_env g) (<[vname := ans]> env) ;~
               m_ret (advance g :: queue, solutions))
          | Some _ =>
              if negb (value_eqb ques ans) then m_ret (queue, solutions)
              else m_ret (advance g :: queue, solutions)
          end)
       else if decide (name = "cut") then
         m_ret ([advance g], solutions)
       else
         m_ret (queue, solutions)
     else
       match builtins self !! name with
       | Some builtin =>
           (ok <~ (fun st => let '(r, e) := builtin g st in (r, write (g_env g) e st));
            if ok : bool then m_ret (advance g :: queue, solutions)
            else m_ret (queue, solutions))
       | None =>
           (clauses <~ m_lift (fst (LogicDB_lookup (db self) name None));
            if decide (List.length clauses = 0) then
              m_lift (Raise (PrologRuntimeError "Failed to find predicate"))
            else
              (queue' <~ try_clauses fuel self pred g clauses queue;
               m_ret (queue', solutions)))
       end)%M.

(** The [while queue] loop. *)
Fixpoint search_loop (fuel : nat) (self : PrologRuntime) (queue : list PrologGoal)
    (solutions : list loc) (st : Store) {struct fuel} : Res (list loc) * Store :=
  match fuel with
  | 0 => (Timeout, st)
  | S fuel' =>
      match pop queue with
      | None => (Ok solutions, st)
      | Some (g, queue') =>
          match step fuel' self g queue' solutions st with
          | (Ok (queue2, solutions2), st2) => search_loop fuel' self queue2 solutions2 st2
          | (Raise e, st2) => (Raise e, st2)
          | (Timeout, st2) => (Timeout, st2)
          end
      end
  end.

(** [search(clause, env)]: [env] is the caller's environment object.
    The solutions are environment objects of the final store. *)
Definition search (fuel : nat) (self : PrologRuntime) (clause : Clause) (env : loc)
    (st : Store) : Res (list loc) * Store :=
  match body clause with
  | None => let '(l, st') := alloc ∅ st in (Ok [l], st')
  | Some b =>
      match b with
      | Predicate bname bargs =>
          let terms := if decide (bname = "and") then bargs else [b] in
          let '(root, st') := PrologGoal_init (head clause) terms None (read st env) st in
          search_loop fuel self [root] [] st'
      | _ => (Raise (PrologRuntimeError "search: expected predicate in body"), st)
      end
  end.

(** The solutions as dictionaries. *)
Definition solutions_of (r : Res (list loc) * Store) : Res (list Env) :=
  match r with
  | (Ok ls, st) => Ok (read st <$> ls)
  | (Raise e, _) => Raise e
  | (Timeout, _) => Timeout
  end.

(** ** The goals the loop considers

    [self._trace ('CONSIDER', g)], first thing after [g = queue.pop()]:
    the goals the loop of [search] takes, in the order in which it takes
    them, until the loop ends, an exception leaves it or the fuel runs
    out. *)
Fixpoint search_trace (fuel : nat) (self : PrologRuntime) (queue : list PrologGoal)
    (solutions : list loc) (st : Store) {struct fuel} : list PrologGoal :=
  match fuel with
  | 0 => []
  | S fuel' =>
      match pop queue with
      | None => []
      | Some (g, queue') =>
          g :: match step fuel' self g queue' solutions st with
               | (Ok (queue2, solutions2), st2) => search_trace fuel' self queue2 solutions2 st2
               | _ => []
               end
      end
  end.

(** [g.inx >= len(g.terms)] and [g.parent == None]: the goal whose
    environment is recorded as a solution. *)
Definition finished_root (g : PrologGoal) : bool :=
  bool_decide (List.length (g_terms g) <= g_inx g) &&
  match g_parent g with
  | None => true
  | Some _ => false
  end.

(** The result of a computation, mapped where it returned. *)
Definition on_ok {A B} (f : A -> B) (r : Res A * Store) : Res B * Store :=
  match r with
  | (Ok a, st) => (Ok (f a), st)
  | (Raise e, st) => (Raise e, st)
  | (Timeout, st) => (Timeout, st)
  end.

(** The goals [search(clause, env)] considers. *)
Definition search_considered (fuel : nat) (self : PrologRuntime) (clause : Clause)
    (env : loc) (st : Store) : list PrologGoal :=
  match body clause with
  | Some (Predicate bname bargs) =>
      let terms := if decide (bname = "and") then bargs else [Predicate bname bargs] in
      let '(root, st') := PrologGoal_init (head clause) terms None (read st env) st in
      search_trace fuel self [root] [] st'
  | _ => []
  end.

(** ** The depth-first reference (spec sections 4.5 and 8)

    Following the spec's words, for comparison with [search]: the
    resolver that takes the most recently created goal first, candidate
    clauses in database order, so that a goal's continuation runs before
    any alternative that was already pending.  A turn is the engine's
    own [step]; only the order of the worklist differs: a stack, with
    the frames of a turn pushed so that the first clause's frame is on
    top. *)

Definition at_cut (g : PrologGoal) : bool :=
  match g_terms g !! g_inx g with
  | Some (Predicate name _) | Some (Var name) => bool_decide (name = "cut")
  | _ => false
  end.

Fixpoint depth_first_loop (fuel : nat) (self : PrologRuntime) (stack : list PrologGoal)
    (solutions : list loc) (st : Store) {struct fuel} : Res (list loc) * Store :=
  match fuel with
  | 0 => (Timeout, st)
  | S fuel' =>
      match stack with
      | [] => (Ok solutions, st)
      | g :: stack' =>
          match step fuel' self g [] solutions st with
          | (Ok (spawned, solutions2), st2) =>
              depth_first_loop fuel' self
                (rev spawned ++ (if at_cut g then [] else stack')) solutions2 st2
          | (Raise e, st2) => (Raise e, st2)
          | (Timeout, st2) => (Timeout, st2)
          end
      end
  end.

Definition depth_first_search (fuel : nat) (self : PrologRuntime) (clause : Clause)
    (env : loc) (st : Store) : Res (list loc) * Store :=
  match body clause with
  | None => let '(l, st') := alloc ∅ st in (Ok [l], st')
  | Some b =>
      match b with
      | Predicate bname bargs =>
          let terms := if decide (bname = "and") then bargs else [b] in
          let '(root, st') := PrologGoal_init (head clause) terms None (read st env) st in
          depth_first_loop fuel self [root] [] st'
      | _ => (Raise (PrologRuntimeError "search: expected predicate in body"), st)
      end
  end.

(** ** The scenarios of spec section 8 *)

Definition atom (name : string) : Term := Predicate name [].
Definition fact (name : string) (args : list Term) : Clause := mkClause name args None.
Definition rule (name : string) (args : list Term) (b : Term) : Clause :=
  mkClause name args (Some b).

(** A database filled by [store], one call per clause. *)
Definition db_of (clauses : list Clause) : LogicDB :=
  foldl (fun d c => LogicDB_store d "kb" c) [] clauses.

(** [parent(tom,bob). parent(bob,ann). parent(bob,pat).
     grandparent(X,Z) :- and(parent(X,Y), parent(Y,Z)).] *)
Definition family : list Clause :=
  [ fact "parent" [atom "tom"; atom "bob"];
    fact "parent" [atom "bob"; atom "ann"];
    fact "parent" [atom "bob"; atom "pat"];
    rule "grandparent" [Var "X"; Var "Z"]
      (Predicate "and" [Predicate "parent" [Var "X"; Var "Y"];
                        Predicate "parent" [Var "Y"; Var "Z"]]) ].

(** [p(X) :- q(X). p(b). q(a).] *)
Definition shallow_second : list Clause :=
  [ rule "p" [Var "X"] (Predicate "q" [Var "X"]);
    fact "p" [atom "b"];
    fact "q" [atom "a"] ].

(** A query is a clause whose body is the goal. *)
Definition query (goal : Term) : Clause := rule "query" [] goal.

(** [search(clause)] on a runtime made by [PrologRuntime(db)], from the
    caller's empty environment; the answer as dictionaries. *)
Definition run_query (fuel : nat) (B : BuiltinsModule) (clauses : list Clause)
    (goal : Term) : Res (list Env) :=
  solutions_of (search fuel (PrologRuntime_init B (db_of clauses)) (query goal) 0 [∅]).

Definition run_depth_first (fuel : nat) (B : BuiltinsModule) (clauses : list Clause)
    (goal : Term) : Res (list Env) :=
  solutions_of (depth_first_search fuel (PrologRuntime_init B (db_of clauses)) (query goal) 0 [∅]).

(** [_unify(a, {}, b, {})]: two new empty dictionaries. *)
Definition unify_empty (fuel : nat) (self : PrologRuntime) (a b : Term) : Res bool :=
  (_unify fuel self a 0 b 1 [∅; ∅]).1.

(** A runtime with nothing registered, as [__init__] has it before its
    first [register_builtin]. *)
Definition bare_runtime (clauses : list Clause) : PrologRuntime :=
  {| db := db_of clauses; builtins := ∅; builtin_functions := ∅ |}.

(** The root frame of a single-subgoal query, with its environment at
    [env]. *)
Definition root_frame (goal : Term) (env : loc) : PrologGoal :=
  mkGoal (atom "query") [goal] None env 0.

(** The clauses a lookup of [name] finds in the database, and the ones
    the overlay holds for it. *)
Definition persisted (d : LogicDB) (name : string) : list Clause :=
  orm_prolog <$> filter (fun ormc => orm_head ormc = name) d.

Definition asserted (ov : LogicDBOverlay) (name : string) : list Clause :=
  default [] (d_assertz ov !! name).

Definition named (name : string) (clauses : list Clause) : list Clause :=
  filter (fun c => head_name c = name) clauses.

(** ** Terms on which evaluation does nothing

    [evaluable self name]: a predicate of this name may be computed by
    the evaluator (an operator or a registered built-in function).
    [inert self t]: no predicate of [t], outside list literals, has such
    a name.  [ground t]: no variable occurs in [t] outside list
    literals.  [tsize t] counts the nodes the evaluator and the unifier
    can visit. *)
Definition evaluable (self : PrologRuntime) (name : string) : bool :=
  match unary_operators name, binary_operators name, builtin_functions self !! name with
  | None, None, None => false
  | _, _, _ => true
  end.

Fixpoint inert (self : PrologRuntime) (t : Term) : bool :=
  match t with
  | Predicate name args => negb (evaluable self name) && forallb (inert self) args
  | _ => true
  end.

Fixpoint ground (t : Term) : bool :=
  match t with
  | Var _ => false
  | Predicate _ args => forallb ground args
  | _ => true
  end.

Definition is_Var (t : Term) : bool :=
  match t with
  | Var _ => true
  | _ => false
  end.

Fixpoint tsize (t : Term) : nat :=
  match t with
  | Predicate _ args => S (list_sum (map tsize args))
  | _ => 1
  end.

(** [==] on two Python lists of terms. *)
Fixpoint terms_eqb (xs ys : list Term) : bool :=
  match xs, ys with
  | [], [] => true
  | x :: xs', y :: ys' => term_eqb x y && terms_eqb xs' ys'
  | _, _ => false
  end.

(** Every registered built-in function returns literals only (as the
    string, date and list functions of [__init__] do). *)
Definition functions_return_literals (self : PrologRuntime) : Prop :=
  forall (name : string) (fn : BuiltinFunction) (t : Term) (env : Env)
         (ev : Evaluator) (v : Term),
    builtin_functions self !! name = Some fn ->
    fn t env ev = Ok (Some v) -> is_Literal v = true.

(** ** The rest of the database interface

    The session holds two tables: the clause rows and the predicate
    documentation rows ([model.ORMPredicateDoc], filled by
    [store_doc]).  [commit] only makes the session durable; it is not
    modelled, and neither is the [commit] flag of the functions
    below. *)

Record ORMPredicateDoc : Type := mkORMPredicateDoc {
  doc_module : string;
  doc_name : string;
  doc_doc : string
}.

Record Session : Type := mkSession {
  clause_rows : LogicDB;
  doc_rows : list ORMPredicateDoc
}.

(** [LogicDB.store] and [LogicDB.lookup] on the session. *)
Definition Session_store (s : Session) (module : string) (clause : Clause) : Session :=
  {| clause_rows := LogicDB_store (clause_rows s) module clause; doc_rows := doc_rows s |}.

Definition Session_lookup (s : Session) (name : string) (overlay : option LogicDBOverlay)
    : Res (list Clause) * Session :=
  let '(r, rows) := LogicDB_lookup (clause_rows s) name overlay in
  (r, {| clause_rows := rows; doc_rows := doc_rows s |}).

(** [LogicDB.store_doc] *)
Definition LogicDB_store_doc (s : Session) (module name doc : string) : Session :=
  {| clause_rows := clause_rows s;
     doc_rows := doc_rows s ++ [ {| doc_module := module; doc_name := name; doc_doc := doc |} ] |}.

(** [LogicDB.clear_module]: the rows of [module] are deleted from both
    tables. *)
Definition LogicDB_clear_module (s : Session) (module : string) : Session :=
  {| clause_rows := filter (fun ormc => orm_module ormc <> module) (clause_rows s);
     doc_rows := filter (fun ormd => doc_module ormd <> module) (doc_rows s) |}.

(** [LogicDB.clear_all_modules] *)
Definition LogicDB_clear_all_modules (s : Session) : Session :=
  {| clause_rows := []; doc_rows := [] |}.

(** [LogicDB.store_overlayZ]: [for name in overlayZ: for clause in
    overlayZ[name]: self.store(module, clause)].  The order in which a
    dict yields its keys is not fixed; [items] is the dict in the order
    the loop meets it. *)
Definition store_item (module : string) (d : LogicDB) (item : string * list Clause)
    : LogicDB :=
  foldl (fun d clause => LogicDB_store d module clause) d item.2.

Definition LogicDB_store_overlayZ_in (d : LogicDB) (module : string)
    (items : list (string * list Clause)) : LogicDB :=
  foldl (store_item module) d items.

Definition LogicDB_store_overlayZ (d : LogicDB) (module : string)
    (overlayZ : gmap string (list Clause)) : LogicDB :=
  LogicDB_store_overlayZ_in d module (map_to_list overlayZ).

(** [LogicDBOverlay.retractall]: stops in the debugger and changes
    nothing. *)
Definition LogicDBOverlay_retractall (ov : LogicDBOverlay) (clause : Clause)
    : Res unit * LogicDBOverlay :=
  (Raise PdbTrap, ov).

(** [LogicDBOverlay.clone]: a new overlay to which every clause of
    [d_assertz] is asserted, name by name; a retracted clause, if there
    is one, is passed to [retractall].  [items] and [retracted] are the
    two dicts in the order the loops meet them. *)
Definition assertz_item (clone : LogicDBOverlay) (item : string * list Clause)
    : LogicDBOverlay :=
  foldl LogicDBOverlay_assertz clone item.2.

Definition LogicDBOverlay_clone_in (items retracted : list (string * list Clause))
    : Res LogicDBOverlay :=
  let clone := foldl assertz_item LogicDBOverlay_init items in
  if forallb (fun item => match item.2 with [] => true | _ :: _ => false end) retracted
  then Ok clone
  else Raise PdbTrap.

Definition LogicDBOverlay_clone (ov : LogicDBOverlay) : Res LogicDBOverlay :=
  LogicDBOverlay_clone_in (map_to_list (d_assertz ov)) (map_to_list (d_retracted ov)).

(** Every clause the overlay holds is filed under its own head name. *)
Definition well_keyed (ov : LogicDBOverlay) : Prop :=
  forall (name : string) (cs : list Clause) (c : Clause),
    d_assertz ov !! name = Some cs -> c ∈ cs -> head_name c = name.

(** What the loops over a dict, taken in the order [items], find for
    the head name [name]. *)
Definition entries_for (name : string) (items : list (string * list Clause)) : list Clause :=
  concat ((fun item => named name item.2) <$> items).

(** ** Queries over facts

    A clause fit for the ground case: a fact whose head has no variable
    and no evaluable predicate, small enough for the fuel at hand. *)
Definition ground_fact (self : PrologRuntime) (pred : Term) (bound : nat) (c : Clause) : Prop :=
  body c = None /\ inert self (head c) = true /\ ground (head c) = true /\
  tsize pred + tsize (head c) <= bound.

(** The frame of a fact that matched the subgoal of [root]. *)
Definition fact_frame (self : PrologRuntime) (pred : Term) (bound : nat)
    (root kid : PrologGoal) : Prop :=
  g_terms kid = [] /\ g_parent kid = Some root /\
  inert self (g_head kid) = true /\ ground (g_head kid) = true /\
  tsize (g_head kid) + tsize pred <= bound.

(** The facts among [clauses] whose head equals the subgoal. *)
Definition matching (pred : Term) (clauses : list Clause) : list Clause :=
  filter (fun c => term_eqb pred (head c) = true) clauses.

(** ** Terms in which no variable occurs twice

    [vars t]: the variables of [t] that the unifier can reach (it does
    not look into list literals), in order of occurrence.  [linear t]:
    none of them occurs twice.  [matches a b]: [a] and [b] agree
    wherever neither has a variable. *)
Fixpoint vars (t : Term) : list string :=
  match t with
  | Var n => [n]
  | Predicate _ args => concat (map vars args)
  | _ => []
  end.

Definition linear (t : Term) : bool := bool_decide (NoDup (vars t)).

Fixpoint matches (a b : Term) {struct a} : bool :=
  let fix list_matches (xs ys : list Term) {struct xs} : bool :=
    match xs, ys with
    | [], [] => true
    | x :: xs', y :: ys' => matches x y && list_matches xs' ys'
    | _, _ => false
    end in
  match a, b with
  | Var _, _ => true
  | _, Var _ => true
  | Predicate n1 a1, Predicate n2 a2 => bool_decide (n1 = n2) && list_matches a1 a2
  | _, _ => term_eqb a b
  end.

Fixpoint matches_args (xs ys : list Term) : bool :=
  match xs, ys with
  | [], [] => true
  | x :: xs', y :: ys' => matches x y && matches_args xs' ys'
  | _, _ => false
  end.

(** ** What a call may change

    [modifies_only d st st']: from [st] to [st'] objects were only
    added, and of the objects of [st] only [d] may differ. *)
Definition modifies_only (d : loc) (st st' : Store) : Prop :=
  List.length st <= List.length st' /\
  forall l, l < List.length st -> l <> d -> st' !! l = st !! l.

(** [frame N st st']: objects were only added and the first [N] objects
    are as they were. *)
Definition frame (N : nat) (st st' : Store) : Prop :=
  List.length st <= List.length st' /\
  forall l, l < N -> st' !! l = st !! l.

(** The environment of a goal, and of each of its ancestors, is an
    object created after the first [N] and before [bound]. *)
Fixpoint goal_owned (N bound : nat) (g : PrologGoal) : Prop :=
  let 'mkGoal _ _ p e _ := g in
  N <= e /\ e < bound /\
  match p with
  | None => True
  | Some pg => goal_owned N bound pg
  end.

Definition queue_owned (N bound : nat) (queue : list PrologGoal) : Prop :=
  Forall (goal_owned N bound) queue.

(** A computation started on a store of at least [b >= N] objects keeps
    the first [N] and, when it returns [a], establishes [Q a] for the
    size of the store it leaves. *)
Definition triple {A} (N b : nat) (m : M Store A) (Q : A -> nat -> Prop) : Prop :=
  forall st, N <= List.length st -> b <= List.length st ->
    frame N st (m st).2 /\
    forall a, (m st).1 = Ok a -> Q a (List.length (m st).2).

(** * Properties *)

(** ** The evaluator on operator names *)

(** C5, as the code has it: a predicate named after a binary operator
    whose arity is not 2, and which is not a unary operator application,
    evaluates to [None]; no argument is evaluated. *)
Theorem prolog_eval_binary_operator_wrong_arity
    (fuel : nat) (self : PrologRuntime) (name : string) (args : list Term) (env : Env) :
  is_Some (binary_operators name) ->
  List.length args <> 2 ->
  ~ (List.length args = 1 /\ is_Some (unary_operators name)) ->
  prolog_eval (S fuel) self (Predicate name args) env = Ok None.
Proof.
  intros [op Hop] Hlen Hunary. cbn [prolog_eval].
  destruct (decide (List.length args = 1)) as [H1 | H1].
  - destruct (unary_operators name) as [u |] eqn:Hu.
    + exfalso. apply Hunary. split; [exact H1 | eauto].
    + rewrite Hop. destruct (decide (List.length args <> 2)); [reflexivity | contradiction].
  - rewrite Hop. destruct (decide (List.length args <> 2)); [reflexivity | contradiction].
Qed.

(** ** Unification writes only to its destination *)

Lemma modifies_only_refl d st : modifies_only d st st.
Proof. split; [lia | auto]. Qed.

Lemma modifies_only_trans d st1 st2 st3 :
  modifies_only d st1 st2 -> modifies_only d st2 st3 -> modifies_only d st1 st3.
Proof.
  intros [L1 F1] [L2 F2]. split; [lia |].
  intros l Hl Hd. rewrite F2 by lia. auto.
Qed.

Lemma modifies_only_write d e st : modifies_only d st (write d e st).
Proof.
  split.
  - unfold write. rewrite length_insert. lia.
  - intros l Hl Hd. unfold write. apply list_lookup_insert_ne. congruence.
Qed.

Lemma unify_args_modifies (u : Term -> Term -> Store -> Res bool * Store) d :
  (forall s t st, d < List.length st -> modifies_only d st (u s t st).2) ->
  forall sargs dargs st, d < List.length st ->
    modifies_only d st (unify_args u sargs dargs st).2.
Proof.
  intros Hu sargs. induction sargs as [| s sargs IH]; intros dargs st Hd.
  - apply modifies_only_refl.
  - destruct dargs as [| t dargs]; [apply modifies_only_refl |].
    cbn [unify_args]. pose proof (Hu s t st Hd) as Hst.
    destruct (u s t st) as [r st'] eqn:E. cbn [snd] in Hst.
    destruct r as [[|] | e |]; try exact Hst.
    eapply modifies_only_trans; [exact Hst |].
    apply IH. destruct Hst. lia.
Qed.

Lemma _unify_modifies fuel self :
  forall src srcEnv dest destEnv st,
    destEnv < List.length st ->
    modifies_only destEnv st (_unify fuel self src srcEnv dest destEnv st).2 /\
    ((_unify fuel self src srcEnv dest destEnv st).1 <> Ok true ->
     (_unify fuel self src srcEnv dest destEnv st).2 !! destEnv = st !! destEnv).
Proof.
  induction fuel as [| fuel IH]; intros src srcEnv dest destEnv st Hd.
  { cbn. split; [apply modifies_only_refl | reflexivity]. }
  assert (Hsame : forall r : Res bool, modifies_only destEnv st (r, st).2 /\
      (((r, st) : Res bool * Store).1 <> Ok true -> (r, st).2 !! destEnv = st !! destEnv)).
  { intros; split; [apply modifies_only_refl | reflexivity]. }
  assert (Hwrite : forall e, modifies_only destEnv st (Ok true, write destEnv e st).2 /\
      (((Ok true, write destEnv e st) : Res bool * Store).1 <> Ok true ->
       (Ok true, write destEnv e st).2 !! destEnv = st !! destEnv)).
  { intros; split; [apply modifies_only_write | intros C; cbn in C; congruence]. }
  assert (Hpred : forall (sname : string) (sargs : list Term) (dname : string) (dargs : list Term),
    let r := (if decide (sname <> dname) then (Ok false, st)
      else if decide (List.length sargs <> List.length dargs) then (Ok false, st)
      else
        let '(dde, st1) := alloc (read st destEnv) st in
        match unify_args (fun s d => _unify fuel self s srcEnv d dde) sargs dargs st1 with
        | (Ok true, st2) => (Ok true, write destEnv (read st2 dde ∪ read st2 destEnv) st2)
        | (r, st2) => (r, st2)
        end) : Res bool * Store in
    modifies_only destEnv st r.2 /\ (r.1 <> Ok true -> r.2 !! destEnv = st !! destEnv)).
  { intros sname sargs dname dargs.
    destruct (decide (sname <> dname)); [apply Hsame |].
    destruct (decide (List.length sargs <> List.length dargs)); [apply Hsame |].
    cbn [alloc]. cbv zeta.
    set (st1 := st ++ [read st destEnv]). set (dde := List.length st).
    assert (Hdde : dde < List.length st1).
    { unfold st1, dde. rewrite length_app. cbn. lia. }
    pose proof (unify_args_modifies (fun s d => _unify fuel self s srcEnv d dde) dde
      (fun s t st' Hlt => proj1 (IH s srcEnv t dde st' Hlt)) sargs dargs st1 Hdde) as [L F].
    destruct (unify_args _ sargs dargs st1) as [r st2]. cbn [snd] in L, F.
    assert (Hlen : List.length st <= List.length st2).
    { unfold st1 in L. rewrite length_app in L. cbn in L. lia. }
    assert (Hold : forall l, l < List.length st -> st2 !! l = st !! l).
    { intros l Hl. rewrite F; [| lia | unfold dde; lia].
      unfold st1. apply lookup_app_l. exact Hl. }
    destruct r as [[|] | e |]; cbn [fst snd].
    - split; [| intros C; congruence]. split.
      + unfold write. rewrite length_insert. exact Hlen.
      + intros l Hl Hne. unfold write. rewrite list_lookup_insert_ne by congruence.
        apply Hold, Hl.
    - split; [split; [exact Hlen | intros; apply Hold; assumption] | intros _; apply Hold, Hd].
    - split; [split; [exact Hlen | intros; apply Hold; assumption] | intros _; apply Hold, Hd].
    - split; [split; [exact Hlen | intros; apply Hold; assumption] | intros _; apply Hold, Hd]. }
  cbn [_unify].
  destruct src as [sn | sf | ss | sl | sname sargs].
  { destruct (prolog_eval fuel self (Var sn) (read st srcEnv)) as [[v |] | e |]; auto. }
  all: destruct dest as [dn | df | ds | dl | dname dargs]; cbn [is_Literal];
    try apply Hpred; try apply Hsame;
    repeat match goal with
    | |- context [match prolog_eval ?f ?s ?t ?e with _ => _ end] =>
        destruct (prolog_eval f s t e) as [[?|] | ? |]
    end; auto.
Qed.

(** C6: a unification that returns false leaves [destEnv] as it was.
    The argument-wise attempts of a compound term run on a scratch copy,
    an object of its own, which is merged back only when every argument
    unified. *)
Theorem _unify_failure_leaves_destEnv
    (fuel : nat) (self : PrologRuntime) (src dest : Term) (srcEnv destEnv : loc)
    (st st' : Store) :
  destEnv < List.length st ->
  _unify fuel self src srcEnv dest destEnv st = (Ok false, st') ->
  st' !! destEnv = st !! destEnv.
Proof.
  intros Hd Hrun.
  destruct (_unify_modifies fuel self src srcEnv dest destEnv st Hd) as [_ Hkeep].
  rewrite Hrun in Hkeep. cbn [fst snd] in Hkeep. apply Hkeep. discriminate.
Qed.

(** ** The search keeps to the objects it creates *)

Lemma frame_refl N st : frame N st st.
Proof. split; [lia | auto]. Qed.

Lemma frame_trans N st1 st2 st3 : frame N st1 st2 -> frame N st2 st3 -> frame N st1 st3.
Proof.
  intros [L1 F1] [L2 F2]. split; [lia |]. intros l Hl. rewrite F2, F1; auto.
Qed.

Lemma frame_alloc N e st : N <= List.length st -> frame N st (st ++ [e]).
Proof.
  intros HN. split.
  - rewrite length_app. cbn. lia.
  - intros l Hl. apply lookup_app_l. lia.
Qed.

Lemma frame_write N l e st : N <= l -> frame N st (write l e st).
Proof.
  intros HN. split.
  - unfold write. rewrite length_insert. lia.
  - intros l' Hl'. unfold write. apply list_lookup_insert_ne. lia.
Qed.

Lemma modifies_only_frame N d st st' :
  N <= d -> N <= List.length st -> modifies_only d st st' -> frame N st st'.
Proof.
  intros Hd HN [L F]. split; [exact L |]. intros l Hl. apply F; lia.
Qed.

Lemma PrologGoal_parent_ind (P : PrologGoal -> Prop) :
  (forall h ts e i, P (mkGoal h ts None e i)) ->
  (forall h ts pg e i, P pg -> P (mkGoal h ts (Some pg) e i)) ->
  forall g, P g.
Proof.
  intros Hroot Hchild. fix ind 1.
  intros [h ts [pg |] e i]; [apply Hchild, ind | apply Hroot].
Qed.

Lemma goal_owned_mono N b b' g : b <= b' -> goal_owned N b g -> goal_owned N b' g.
Proof.
  intros Hb. induction g as [h ts e i | h ts pg e i IH] using PrologGoal_parent_ind;
    cbn; intros (? & ? & ?); repeat split; auto; lia.
Qed.

Lemma queue_owned_mono N b b' queue :
  b <= b' -> queue_owned N b queue -> queue_owned N b' queue.
Proof.
  intros Hb Hq. eapply Forall_impl; [exact Hq |].
  intros g. apply goal_owned_mono, Hb.
Qed.

Lemma goal_owned_env N b g : goal_owned N b g -> N <= g_env g /\ g_env g < b.
Proof. destruct g; cbn. tauto. Qed.

Lemma goal_owned_advance N b g : goal_owned N b g -> goal_owned N b (advance g).
Proof. destruct g; cbn. tauto. Qed.

(** *** Rules for [triple] *)

Lemma triple_ret {A} N b (a : A) (Q : A -> nat -> Prop) :
  (forall b', b <= b' -> Q a b') -> triple N b (m_ret a) Q.
Proof.
  intros HQ st HN Hb. cbn. split; [apply frame_refl |].
  intros a' [= <-]. apply HQ, Hb.
Qed.

Lemma triple_lift {A} N b (r : Res A) (Q : A -> nat -> Prop) :
  (forall a b', r = Ok a -> b <= b' -> Q a b') -> triple N b (m_lift r) Q.
Proof.
  intros HQ st HN Hb. cbn. split; [apply frame_refl |].
  intros a Hr. apply HQ; assumption.
Qed.

Lemma triple_bind {A B} N b (m : M Store A) (k : A -> M Store B)
    (Q : A -> nat -> Prop) (R : B -> nat -> Prop) :
  triple N b m Q ->
  (forall a b', b <= b' -> Q a b' -> triple N b' (k a) R) ->
  triple N b (m_bind m k) R.
Proof.
  intros Hm Hk st HN Hb. unfold m_bind.
  destruct (Hm st HN Hb) as [Hf HQ].
  destruct (m st) as [[a | e |] st1]; cbn [fst snd] in *.
  - assert (Hb1 : b <= List.length st1) by (destruct Hf; lia).
    assert (HN1 : N <= List.length st1) by (destruct Hf; lia).
    destruct (Hk a (List.length st1) Hb1 (HQ a eq_refl) st1 HN1 (le_n _)) as [Hf' HR].
    split; [eapply frame_trans; eassumption | exact HR].
  - split; [exact Hf | discriminate].
  - split; [exact Hf | discriminate].
Qed.

Lemma triple_weaken {A} N b (m : M Store A) (Q Q' : A -> nat -> Prop) :
  triple N b m Q -> (forall a b', b <= b' -> Q a b' -> Q' a b') -> triple N b m Q'.
Proof.
  intros Hm HQ st HN Hb. destruct (Hm st HN Hb) as [Hf Hq].
  split; [exact Hf |]. intros a Ha. apply HQ; [destruct Hf; lia | auto].
Qed.

Lemma triple_read N b l : triple N b (m_read l) (fun _ _ => True).
Proof. intros st HN Hb. cbn. split; [apply frame_refl | auto]. Qed.

Lemma triple_write N b l e : N <= l -> triple N b (m_write l e) (fun _ _ => True).
Proof. intros Hl st HN Hb. cbn. split; [apply frame_write, Hl | auto]. Qed.

Lemma triple_unify N b fuel self src srcEnv dest destEnv :
  N <= destEnv -> destEnv < b ->
  triple N b (_unify fuel self src srcEnv dest destEnv) (fun _ _ => True).
Proof.
  intros Hd Hlt st HN Hb. split; [| auto].
  eapply modifies_only_frame; [exact Hd | exact HN |].
  apply _unify_modifies. lia.
Qed.

Lemma triple_new_goal N b hd terms parent env :
  match parent with Some pg => goal_owned N b pg | None => True end ->
  triple N b (m_new_goal hd terms parent env) (fun g b' => goal_owned N b' g).
Proof.
  intros Hp st HN Hb. unfold m_new_goal, PrologGoal_init, alloc. cbn [fst snd].
  split; [apply frame_alloc, HN |].
  intros g [= <-]. cbn. rewrite length_app. cbn. repeat split; try lia.
  destruct parent as [pg |]; [| exact I].
  eapply goal_owned_mono; [| exact Hp]. lia.
Qed.

Lemma deepcopy_goal_owned N g :
  forall st, N <= List.length st ->
    frame N st (deepcopy_goal g st).2 /\
    goal_owned N (List.length (deepcopy_goal g st).2) (deepcopy_goal g st).1.
Proof.
  induction g as [h ts e i | h ts pg e i IH] using PrologGoal_parent_ind; intros st HN.
  - cbn. split; [apply frame_alloc, HN |].
    rewrite length_app. cbn. repeat split; lia.
  - cbn [deepcopy_goal]. destruct (IH st HN) as [Hf Ho].
    destruct (deepcopy_goal pg st) as [pg' st1]. cbn [fst snd] in *.
    cbn [alloc fst snd].
    assert (HN1 : N <= List.length st1) by (destruct Hf; lia).
    split; [eapply frame_trans; [exact Hf | apply frame_alloc, HN1] |].
    cbn. rewrite length_app. cbn. repeat split; try lia.
    eapply goal_owned_mono; [| exact Ho]. lia.
Qed.

Lemma triple_deepcopy N b g :
  triple N b (m_deepcopy_goal g) (fun g' b' => goal_owned N b' g').
Proof.
  intros st HN Hb. unfold m_deepcopy_goal.
  destruct (deepcopy_goal_owned N g st HN) as [Hf Ho].
  destruct (deepcopy_goal g st) as [g' st']. cbn [fst snd] in *.
  split; [exact Hf |]. intros a [= <-]. exact Ho.
Qed.

Lemma triple_lift_any {A} N b (r : Res A) : triple N b (m_lift r) (fun _ _ => True).
Proof. apply triple_lift. auto. Qed.

Lemma triple_or_children N hd g subgoals :
  forall b children,
    goal_owned N b g -> queue_owned N b children ->
    triple N b (or_children hd g subgoals children) (fun cs b' => queue_owned N b' cs).
Proof.
  induction subgoals as [| subgoal subgoals IH]; intros b children Hg Hcs; cbn [or_children].
  - apply triple_ret. intros b' Hb'. eapply queue_owned_mono; eassumption.
  - eapply triple_bind; [apply triple_lift_any |]. intros sname b1 Hb1 _.
    eapply triple_bind with (Q := fun c b' => goal_owned N b' c).
    + destruct (decide (sname = "and")).
      * eapply triple_bind; [apply triple_lift_any |]. intros sargs b2 Hb2 _.
        apply triple_new_goal. eapply goal_owned_mono; [| exact Hg]. lia.
      * apply triple_new_goal. eapply goal_owned_mono; [| exact Hg]. lia.
    + intros child b2 Hb2 Hchild. apply IH.
      * eapply goal_owned_mono; [| exact Hg]. lia.
      * apply Forall_app. split; [| constructor; [exact Hchild | constructor]].
        eapply queue_owned_mono; [| exact Hcs]. lia.
Qed.

Lemma triple_make_children N b clause g :
  goal_owned N b g ->
  triple N b (make_children clause g) (fun cs b' => queue_owned N b' cs).
Proof.
  intros Hg. unfold make_children.
  assert (Hone : forall b1 terms, b <= b1 ->
    triple N b1 (m_bind (m_new_goal (head clause) terms (Some g) ∅) (fun child => m_ret [child]))
      (fun cs b' => queue_owned N b' cs)).
  { intros b1 terms Hb1. eapply triple_bind.
    - apply triple_new_goal. eapply goal_owned_mono; [| exact Hg]. exact Hb1.
    - intros child b2 Hb2 Hchild. apply triple_ret. intros b3 Hb3.
      constructor; [| constructor]. eapply goal_owned_mono; [| exact Hchild]. exact Hb3. }
  destruct (body clause) as [bd |]; [| apply Hone; lia].
  eapply triple_bind; [apply triple_lift_any |]. intros bname b1 Hb1 _.
  destruct (decide (bname = "or")).
  - eapply triple_bind; [apply triple_lift_any |]. intros bargs b2 Hb2 _.
    apply triple_or_children; [| constructor].
    eapply goal_owned_mono; [| exact Hg]. lia.
  - destruct (decide (bname = "and")).
    + eapply triple_bind; [apply triple_lift_any |]. intros bargs b2 Hb2 _.
      apply Hone. lia.
    + apply Hone. lia.
Qed.

Lemma triple_queue_children N fuel self pred g clause children :
  forall b queue,
    queue_owned N b children -> queue_owned N b queue ->
    triple N b (queue_children fuel self pred g clause children queue)
      (fun q b' => queue_owned N b' q).
Proof.
  induction children as [| child children IH]; intros b queue Hcs Hq; cbn [queue_children].
  - apply triple_ret. intros b' Hb'. eapply queue_owned_mono; eassumption.
  - apply Forall_cons in Hcs as [Hchild Hcs].
    destruct (goal_owned_env _ _ _ Hchild) as [Hlo Hhi].
    eapply triple_bind; [apply triple_unify; eassumption |].
    intros ans b1 Hb1 _. apply IH.
    + eapply queue_owned_mono; eassumption.
    + destruct ans; [constructor |]; try (eapply goal_owned_mono; eassumption);
        eapply queue_owned_mono; eassumption.
Qed.

Lemma triple_try_clauses N fuel self pred g clauses :
  forall b queue,
    goal_owned N b g -> queue_owned N b queue ->
    triple N b (try_clauses fuel self pred g clauses queue)
      (fun q b' => queue_owned N b' q).
Proof.
  induction clauses as [| clause clauses IH]; intros b queue Hg Hq; cbn [try_clauses].
  - apply triple_ret. intros b' Hb'. eapply queue_owned_mono; eassumption.
  - eapply triple_bind; [apply triple_lift_any |]. intros pargs b1 Hb1 _.
    destruct (decide (List.length (head_args clause) <> List.length pargs)).
    + apply IH; [eapply goal_owned_mono | eapply queue_owned_mono]; eassumption.
    + eapply triple_bind.
      { apply triple_make_children. eapply goal_owned_mono; eassumption. }
      intros children b2 Hb2 Hcs.
      eapply triple_bind.
      { apply triple_queue_children; [exact Hcs |].
        eapply queue_owned_mono; [| exact Hq]. lia. }
      intros queue' b3 Hb3 Hq'. apply IH; [| exact Hq'].
      eapply goal_owned_mono; [| exact Hg]. lia.
Qed.

Lemma triple_step N b fuel self g queue solutions :
  goal_owned N b g -> queue_owned N b queue ->
  triple N b (step fuel self g queue solutions) (fun qs b' => queue_owned N b' qs.1).
Proof.
  intros Hg Hq. unfold step.
  assert (Hkeep : forall (sols : list loc) b1, b <= b1 ->
    triple N b1 (m_ret (queue, sols)) (fun qs b' => queue_owned N b' qs.1)).
  { intros sols b1 Hb1. apply triple_ret. intros b' Hb'. cbn.
    eapply queue_owned_mono; [| exact Hq]. lia. }
  assert (Hresume : forall b1, b <= b1 ->
    triple N b1 (m_ret (advance g :: queue, solutions)) (fun qs b' => queue_owned N b' qs.1)).
  { intros b1 Hb1. apply triple_ret. intros b' Hb'. cbn. constructor.
    - apply goal_owned_advance. eapply goal_owned_mono; [| exact Hg]. lia.
    - eapply queue_owned_mono; [| exact Hq]. lia. }
  destruct (goal_owned_env _ _ _ Hg) as [Hlo Hhi].
  destruct (decide (List.length (g_terms g) <= g_inx g)).
  - destruct (g_parent g) as [gp |]; [| apply Hkeep; lia].
    eapply triple_bind; [apply triple_deepcopy |]. intros parent b1 Hb1 Hparent.
    eapply triple_bind; [apply triple_lift_any |]. intros pterm b2 Hb2 _.
    destruct (goal_owned_env _ _ _ Hparent) as [Hplo Hphi].
    eapply triple_bind; [apply triple_unify; [exact Hplo | lia] |].
    intros _ b3 Hb3 _. apply triple_ret. intros b4 Hb4. cbn. constructor.
    + apply goal_owned_advance. eapply goal_owned_mono; [| exact Hparent]. lia.
    + eapply queue_owned_mono; [| exact Hq]. lia.
  - eapply triple_bind; [apply triple_lift_any |]. intros pred b1 Hb1 _.
    eapply triple_bind; [apply triple_lift_any |]. intros name b2 Hb2 _.
    destruct (decide (name ∈ ["is"; "cut"; "fail"])).
    + destruct (decide (name = "is")).
      * eapply triple_bind; [apply triple_lift_any |]. intros pargs b3 Hb3 _.
        eapply triple_bind; [apply triple_lift_any |]. intros a0 b4 Hb4 _.
        eapply triple_bind; [apply triple_read |]. intros env b5 Hb5 _.
        eapply triple_bind; [apply triple_lift_any |]. intros ques b6 Hb6 _.
        eapply triple_bind; [apply triple_lift_any |]. intros a1 b7 Hb7 _.
        eapply triple_bind; [apply triple_lift_any |]. intros ans b8 Hb8 _.
        destruct ques as [q |].
        -- destruct (negb _); [apply Hkeep | apply Hresume]; lia.
        -- eapply triple_bind; [apply triple_lift_any |]. intros vname b9 Hb9 _.
           eapply triple_bind; [apply triple_write, Hlo |]. intros _ b10 Hb10 _.
           apply Hresume. lia.
      * destruct (decide (name = "cut")); [| apply Hkeep; lia].
        apply triple_ret. intros b' Hb'. cbn. constructor; [| constructor].
        apply goal_owned_advance. eapply goal_owned_mono; [| exact Hg]. lia.
    + destruct (builtins self !! name) as [builtin |].
      * eapply triple_bind with (Q := fun _ _ => True).
        { intros st HN Hb. destruct (builtin g st) as [r e]. cbn [fst snd].
          split; [apply frame_write, Hlo | auto]. }
        intros ok b3 Hb3 _. destruct ok; [apply Hresume | apply Hkeep]; lia.
      * eapply triple_bind; [apply triple_lift_any |]. intros clauses b3 Hb3 _.
        destruct (decide (List.length clauses = 0)).
        { apply triple_lift. discriminate. }
        eapply triple_bind.
        { apply triple_try_clauses;
            [eapply goal_owned_mono; [| exact Hg] | eapply queue_owned_mono; [| exact Hq]]; lia. }
        intros queue' b4 Hb4 Hq'. apply triple_ret. intros b5 Hb5. cbn.
        eapply queue_owned_mono; eassumption.
Qed.

Lemma search_loop_frame N fuel self :
  forall queue solutions st,
    N <= List.length st -> queue_owned N (List.length st) queue ->
    frame N st (search_loop fuel self queue solutions st).2.
Proof.
  induction fuel as [| fuel IH]; intros queue solutions st HN Hq; [apply frame_refl |].
  cbn [search_loop].
  destruct (pop queue) as [[g queue'] |] eqn:Hpop; [| apply frame_refl].
  assert (Hg : goal_owned N (List.length st) g /\ queue_owned N (List.length st) queue').
  { clear -Hpop Hq. revert g queue' Hpop.
    induction queue as [| x queue IHq]; intros g queue' Hpop; [discriminate |].
    cbn in Hpop. apply Forall_cons in Hq as [Hx Hq].
    destruct (pop queue) as [[y r] |].
    - injection Hpop as <- <-. destruct (IHq Hq y r eq_refl).
      split; [assumption | constructor; assumption].
    - injection Hpop as <- <-. split; [assumption | constructor]. }
  destruct Hg as [Hg Hq'].
  destruct (triple_step N (List.length st) fuel self g queue' solutions Hg Hq' st HN (le_n _))
    as [Hf Hpost].
  destruct (step fuel self g queue' solutions st) as [[[queue2 solutions2] | e |] st2];
    cbn [fst snd] in *; try exact Hf.
  eapply frame_trans; [exact Hf |]. apply IH.
  - destruct Hf. lia.
  - exact (Hpost _ eq_refl).
Qed.

(** C9: whatever [search] does (return, raise, or still run when the
    fuel is spent), the caller's environment object is as it was: the
    root goal works on a copy, and every later write goes to an object
    the search created. *)
Theorem search_leaves_caller_env
    (fuel : nat) (self : PrologRuntime) (clause : Clause) (env : loc) (st : Store) :
  env < List.length st ->
  (search fuel self clause env st).2 !! env = st !! env.
Proof.
  intros Henv.
  assert (Hf : frame (List.length st) st (search fuel self clause env st).2).
  { unfold search. destruct (body clause) as [b |].
    - destruct b as [n | f | s | l | bname bargs]; try apply frame_refl.
      unfold PrologGoal_init, alloc.
      eapply frame_trans; [apply frame_alloc, le_n |].
      apply search_loop_frame.
      + rewrite length_app. lia.
      + constructor; [| constructor]. cbn. rewrite length_app. cbn. lia.
    - cbn. apply frame_alloc, le_n. }
  destruct Hf as [_ Hf]. apply Hf, Henv.
Qed.

(** ** One turn of the loop *)

Lemma m_bind_Ok {S A B} (m : M S A) (k : A -> M S B) st b st' :
  m_bind m k st = (Ok b, st') ->
  exists a st1, m st = (Ok a, st1) /\ k a st1 = (Ok b, st').
Proof.
  unfold m_bind. destruct (m st) as [[a | e |] st1]; intros Hk; try discriminate.
  exists a, st1. split; [reflexivity | exact Hk].
Qed.

Lemma m_lift_Ok {S A} (r : Res A) (st : S) a st' :
  m_lift r st = (Ok a, st') -> r = Ok a /\ st' = st.
Proof. unfold m_lift. intros [= -> ->]. auto. Qed.

Lemma m_ret_Ok {S A} (x : A) (st : S) a st' :
  m_ret x st = (Ok a, st') -> a = x /\ st' = st.
Proof. unfold m_ret. intros [= -> ->]. auto. Qed.

Lemma pop_snoc {A} (q : list A) (g : A) : pop (q ++ [g]) = Some (g, q).
Proof.
  induction q as [| x q IH]; [reflexivity |]. cbn. rewrite IH. reflexivity.
Qed.

Lemma queue_children_appends fuel self pred g clause children :
  forall queue st q' st',
    queue_children fuel self pred g clause children queue st = (Ok q', st') ->
    exists new, q' = new ++ queue.
Proof.
  induction children as [| child children IH]; intros queue st q' st' Hrun;
    cbn [queue_children] in Hrun.
  - apply m_ret_Ok in Hrun as [-> _]. exists []. reflexivity.
  - apply m_bind_Ok in Hrun as (ans & st1 & _ & Hrun).
    apply IH in Hrun as [new ->].
    destruct ans; [exists (new ++ [child]) | exists new]; [| reflexivity].
    rewrite <- app_assoc. reflexivity.
Qed.

Lemma try_clauses_appends fuel self pred g clauses :
  forall queue st q' st',
    try_clauses fuel self pred g clauses queue st = (Ok q', st') ->
    exists new, q' = new ++ queue.
Proof.
  induction clauses as [| clause clauses IH]; intros queue st q' st' Hrun;
    cbn [try_clauses] in Hrun.
  - apply m_ret_Ok in Hrun as [-> _]. exists []. reflexivity.
  - apply m_bind_Ok in Hrun as (pargs & st1 & _ & Hrun).
    destruct (decide (List.length (head_args clause) <> List.length pargs)).
    + eapply IH, Hrun.
    + apply m_bind_Ok in Hrun as (children & st2 & _ & Hrun).
      apply m_bind_Ok in Hrun as (queue1 & st3 & Hq1 & Hrun).
      apply queue_children_appends in Hq1 as [new1 ->].
      apply IH in Hrun as [new2 ->].
      exists (new2 ++ new1). rewrite <- app_assoc. reflexivity.
Qed.

(** Candidates whose arity differs from the subgoal's are passed over:
    nothing is created, nothing is queued. *)
Lemma try_clauses_no_arity_match fuel self name args g clauses queue st :
  Forall (fun c => List.length (head_args c) <> List.length args) clauses ->
  try_clauses fuel self (Predicate name args) g clauses queue st = (Ok queue, st).
Proof.
  induction 1 as [| clause clauses Hc _ IH]; [reflexivity |].
  cbn [try_clauses]. unfold m_bind at 1. cbn [m_lift get_args].
  destruct (decide (List.length (head_args clause) <> List.length args)); [exact IH | contradiction].
Qed.

(** What a turn does to the queue and to the solutions: the frames it
    creates go in front of the pending ones, which stay in place, unless
    the subgoal is [cut]; a solution is recorded, at the end of the
    list, only by a finished root frame. *)
Lemma step_shape fuel self g queue solutions st q' solutions' st' :
  step fuel self g queue solutions st = (Ok (q', solutions'), st') ->
  ((exists new, q' = new ++ queue) \/ (at_cut g = true /\ q' = [advance g])) /\
  (solutions' = solutions \/
   (g_parent g = None /\ List.length (g_terms g) <= g_inx g /\
    solutions' = solutions ++ [g_env g] /\ q' = queue)).
Proof.
  unfold step. intros Hrun.
  destruct (decide (List.length (g_terms g) <= g_inx g)) as [Hfin | Hmore].
  - destruct (g_parent g) as [gp |] eqn:Hp.
    + apply m_bind_Ok in Hrun as (parent & st1 & _ & Hrun).
      apply m_bind_Ok in Hrun as (pterm & st2 & _ & Hrun).
      apply m_bind_Ok in Hrun as (ans & st3 & _ & Hrun).
      apply m_ret_Ok in Hrun as [[= -> ->] _].
      split; [left; exists [advance parent]; reflexivity | left; reflexivity].
    + apply m_ret_Ok in Hrun as [[= -> ->] _].
      split; [left; exists []; reflexivity | right; auto].
  - apply m_bind_Ok in Hrun as (pred & st1 & Hpred & Hrun).
    apply m_lift_Ok in Hpred as [Hpred ->].
    apply m_bind_Ok in Hrun as (name & st2 & Hname & Hrun).
    apply m_lift_Ok in Hname as [Hname ->].
    destruct (decide (name ∈ ["is"; "cut"; "fail"])).
    + destruct (decide (name = "is")).
      * apply m_bind_Ok in Hrun as (pargs & st3 & _ & Hrun).
        apply m_bind_Ok in Hrun as (a0 & st4 & _ & Hrun).
        apply m_bind_Ok in Hrun as (env & st5 & _ & Hrun).
        apply m_bind_Ok in Hrun as (ques & st6 & _ & Hrun).
        apply m_bind_Ok in Hrun as (a1 & st7 & _ & Hrun).
        apply m_bind_Ok in Hrun as (ans & st8 & _ & Hrun).
        destruct ques as [q |].
        -- destruct (negb _); apply m_ret_Ok in Hrun as [[= -> ->] _].
           ++ split; [left; exists []; reflexivity | left; reflexivity].
           ++ split; [left; exists [advance g]; reflexivity | left; reflexivity].
        -- apply m_bind_Ok in Hrun as (vname & st9 & _ & Hrun).
           apply m_bind_Ok in Hrun as (u & st10 & _ & Hrun).
           apply m_ret_Ok in Hrun as [[= -> ->] _].
           split; [left; exists [advance g]; reflexivity | left; reflexivity].
      * destruct (decide (name = "cut")) as [-> |]; apply m_ret_Ok in Hrun as [[= -> ->] _].
        -- split; [right | left; reflexivity]. split; [| reflexivity].
           unfold at_cut, py_index in *.
           destruct (g_terms g !! g_inx g) as [t |]; [| discriminate].
           injection Hpred as ->.
           destruct pred; try discriminate; injection Hname as ->; reflexivity.
        -- split; [left; exists []; reflexivity | left; reflexivity].
    + destruct (builtins self !! name) as [builtin |].
      * apply m_bind_Ok in Hrun as (ok & st3 & _ & Hrun).
        destruct ok; apply m_ret_Ok in Hrun as [[= -> ->] _].
        -- split; [left; exists [advance g]; reflexivity | left; reflexivity].
        -- split; [left; exists []; reflexivity | left; reflexivity].
      * apply m_bind_Ok in Hrun as (clauses & st3 & _ & Hrun).
        destruct (decide (List.length clauses = 0)).
        { apply m_lift_Ok in Hrun as [? _]. discriminate. }
        apply m_bind_Ok in Hrun as (queue1 & st4 & Htry & Hrun).
        apply m_ret_Ok in Hrun as [[= -> ->] _].
        apply try_clauses_appends in Htry.
        split; [left; exact Htry | left; reflexivity].
Qed.

Lemma deepcopy_goal_fields g st :
  g_head (deepcopy_goal g st).1 = g_head g /\
  g_terms (deepcopy_goal g st).1 = g_terms g /\
  g_inx (deepcopy_goal g st).1 = g_inx g.
Proof.
  destruct g as [h ts p e i]. cbn [deepcopy_goal].
  destruct p as [pg |]; [destruct (deepcopy_goal pg st) |]; cbn; auto.
Qed.

(** C10: a subgoal whose name has clauses, none of them of the subgoal's
    arity, raises nothing: the turn ends with the queue, the solutions
    and the store as they were, so the frame is dropped without a child
    and without a solution. *)
Theorem step_arity_mismatch_is_silent
    (fuel : nat) (self : PrologRuntime) (g : PrologGoal) (queue : list PrologGoal)
    (solutions : list loc) (st : Store) (name : string) (args : list Term)
    (clauses : list Clause) :
  g_terms g !! g_inx g = Some (Predicate name args) ->
  name ∉ ["is"; "cut"; "fail"] ->
  builtins self !! name = None ->
  (LogicDB_lookup (db self) name None).1 = Ok clauses ->
  clauses <> [] ->
  Forall (fun c => List.length (head_args c) <> List.length args) clauses ->
  step fuel self g queue solutions st = (Ok (queue, solutions), st).
Proof.
  intros Hpred Hspecial Hb Hlook Hne Harity. unfold step.
  destruct (decide (List.length (g_terms g) <= g_inx g)) as [Hfin | _].
  { apply lookup_lt_Some in Hpred. lia. }
  unfold m_bind at 1. unfold py_index. rewrite Hpred. cbn [m_lift].
  unfold m_bind at 1. cbn [get_name m_lift].
  destruct (decide (name ∈ ["is"; "cut"; "fail"])); [contradiction |].
  match goal with
  | |- match ?x with _ => _ end _ = _ => replace x with (@None BuiltinPredicate) by (symmetry; exact Hb)
  end.
  unfold m_bind at 1. rewrite Hlook. cbn [m_lift].
  destruct (decide (List.length clauses = 0)) as [Hz | _].
  { destruct clauses; [congruence | discriminate]. }
  unfold m_bind at 1. rewrite try_clauses_no_arity_match by assumption.
  reflexivity.
Qed.

(** C2: at a [cut] subgoal the queue is emptied, whatever was pending,
    and the frame, advanced by one, is the only one queued; solutions
    and store are untouched.  On the family database the query
    [and(parent(tom,X), cut, parent(X,Z))] commits to [X = bob] and
    still enumerates both children of [bob]. *)
Theorem cut_empties_queue_and_resumes :
  (forall (fuel : nat) (self : PrologRuntime) (g : PrologGoal) (queue : list PrologGoal)
          (solutions : list loc) (st : Store) (pred : Term),
      g_terms g !! g_inx g = Some pred ->
      get_name pred = Ok "cut" ->
      step fuel self g queue solutions st = (Ok ([advance g], solutions), st)) /\
  (forall (B : BuiltinsModule) (k : nat),
      run_query (40 + k) B family
        (Predicate "and" [Predicate "parent" [atom "tom"; Var "X"];
                          atom "cut";
                          Predicate "parent" [Var "X"; Var "Z"]])
      = Ok [ {[ "X" := Some (atom "bob"); "Z" := Some (atom "ann") ]};
             {[ "X" := Some (atom "bob"); "Z" := Some (atom "pat") ]} ]).
Proof.
  split.
  - intros fuel self g queue solutions st pred Hpred Hname. unfold step.
    destruct (decide (List.length (g_terms g) <= g_inx g)) as [Hfin | _].
    { apply lookup_lt_Some in Hpred. lia. }
    unfold m_bind at 1. unfold py_index. rewrite Hpred. cbn [m_lift].
    unfold m_bind at 1. rewrite Hname. cbn [m_lift].
    destruct (decide ("cut" ∈ ["is"; "cut"; "fail"])) as [_ | Hn];
      [| exfalso; apply Hn; set_solver].
    destruct (decide ("cut" = "is")); [discriminate |].
    destruct (decide ("cut" = "cut")); [reflexivity | congruence].
  - intros B k. vm_compute. reflexivity.
Qed.

(** ** The order of the queue *)

Lemma on_ok_bind {A B C} (m : M Store A) (k : A -> M Store C) (k' : A -> M Store B)
    (f : B -> C) st :
  (forall a st1, k a st1 = on_ok f (k' a st1)) ->
  m_bind m k st = on_ok f (m_bind m k' st).
Proof.
  intros Hk. unfold m_bind. destruct (m st) as [[a | e |] st1]; [apply Hk | reflexivity..].
Qed.

Lemma m_bind_lift_Ok {A B} (a : A) (k : A -> M Store B) st :
  m_bind (m_lift (Ok a)) k st = k a st.
Proof. reflexivity. Qed.

Lemma on_ok_on_ok {A B C} (f : A -> B) (g : B -> C) (r : Res A * Store) :
  on_ok g (on_ok f r) = on_ok (fun a => g (f a)) r.
Proof. destruct r as [[a | e |] st]; reflexivity. Qed.

Lemma on_ok_ext {A B} (f g : A -> B) (r : Res A * Store) :
  (forall a, f a = g a) -> on_ok f r = on_ok g r.
Proof. intros Hfg. destruct r as [[a | e |] st]; cbn; [rewrite Hfg |..]; reflexivity. Qed.

(** The frames a turn queues do not depend on what is pending: they are
    the ones it queues on an empty queue, put in front. *)
Lemma queue_children_local fuel self pred g clause children :
  forall queue st,
    queue_children fuel self pred g clause children queue st =
    on_ok (fun new => new ++ queue) (queue_children fuel self pred g clause children [] st).
Proof.
  induction children as [| child children IH]; intros queue st; [reflexivity |].
  cbn [queue_children]. unfold m_bind.
  destruct (_unify fuel self pred (g_env g) (head clause) (g_env child) st) as [[ans | e |] st1];
    [| reflexivity..].
  rewrite IH. rewrite (IH (if ans then [child] else [])). rewrite on_ok_on_ok.
  apply on_ok_ext. intros new. destruct ans; [| rewrite app_nil_r; reflexivity].
  rewrite <- app_assoc. reflexivity.
Qed.

Lemma try_clauses_local fuel self pred g clauses :
  forall queue st,
    try_clauses fuel self pred g clauses queue st =
    on_ok (fun new => new ++ queue) (try_clauses fuel self pred g clauses [] st).
Proof.
  induction clauses as [| clause clauses IH]; intros queue st; [reflexivity |].
  cbn [try_clauses]. unfold m_bind, m_lift.
  destruct (get_args pred) as [pargs | e |]; [| reflexivity..].
  destruct (decide (List.length (head_args clause) <> List.length pargs)); [apply IH |].
  destruct (make_children clause g st) as [[children | e |] st2]; [| reflexivity..].
  rewrite queue_children_local.
  destruct (queue_children fuel self pred g clause children [] st2) as [[new1 | e |] st3];
    cbn [on_ok]; [| reflexivity..].
  rewrite IH. rewrite (IH new1). rewrite on_ok_on_ok.
  apply on_ok_ext. intros new. rewrite <- app_assoc. reflexivity.
Qed.

(** The candidates are tried in the order of the lookup: the frames of
    the later clauses are put in front of those of the earlier ones,
    which are thus taken first. *)
Lemma try_clauses_app fuel self pred g cs1 cs2 :
  forall queue st,
    try_clauses fuel self pred g (cs1 ++ cs2) queue st =
    match try_clauses fuel self pred g cs1 [] st with
    | (Ok new1, st1) =>
        on_ok (fun new2 => new2 ++ new1 ++ queue) (try_clauses fuel self pred g cs2 [] st1)
    | (Raise e, st1) => (Raise e, st1)
    | (Timeout, st1) => (Timeout, st1)
    end.
Proof.
  induction cs1 as [| clause cs1 IH]; intros queue st.
  - cbn [app try_clauses m_ret]. apply try_clauses_local.
  - cbn [app try_clauses]. unfold m_bind, m_lift.
    destruct (get_args pred) as [pargs | e |]; [| reflexivity..].
    destruct (decide (List.length (head_args clause) <> List.length pargs)); [apply IH |].
    destruct (make_children clause g st) as [[children | e |] st2]; [| reflexivity..].
    rewrite queue_children_local.
    destruct (queue_children fuel self pred g clause children [] st2) as [[newc | e |] st3];
      cbn [on_ok]; [| reflexivity..].
    rewrite IH.
    rewrite (try_clauses_local fuel self pred g cs1 newc).
    destruct (try_clauses fuel self pred g cs1 [] st3) as [[new1 | e |] st4];
      cbn [on_ok]; [| reflexivity..].
    apply on_ok_ext. intros new2. rewrite <- !app_assoc. reflexivity.
Qed.

Lemma at_cut_name g :
  at_cut g = match g_terms g !! g_inx g with
             | Some t => match get_name t with
                         | Ok n => bool_decide (n = "cut")
                         | _ => false
                         end
             | None => false
             end.
Proof. unfold at_cut. destruct (g_terms g !! g_inx g) as [[] |]; reflexivity. Qed.

(** What a turn does depends on what is pending only in that the frames
    it queues go in front of the pending ones, or replace them at a
    [cut]; the solutions it finds are added at the end. *)
Lemma step_local fuel self g queue solutions st :
  step fuel self g queue solutions st =
  on_ok (fun r => (if at_cut g then r.1 else r.1 ++ queue, solutions ++ r.2))
    (step fuel self g [] [] st).
Proof.
  rewrite at_cut_name. unfold step.
  destruct (decide (List.length (g_terms g) <= g_inx g)) as [Hfin | Hmore].
  { rewrite (lookup_ge_None_2 (g_terms g) (g_inx g)) by lia.
    destruct (g_parent g) as [gp |]; [| reflexivity].
    unfold m_bind, m_lift, m_ret, m_deepcopy_goal.
    destruct (deepcopy_goal gp st) as [parent st1].
    destruct (py_index (g_terms parent) (g_inx parent)) as [pterm | e |]; [| reflexivity..].
    destruct (_unify fuel self (g_head g) (g_env g) pterm (g_env parent) st1) as [[ans | e |] st2];
      [| reflexivity..].
    cbn [on_ok fst snd app]. rewrite app_nil_r. reflexivity. }
  unfold py_index. destruct (g_terms g !! g_inx g) as [pred |]; [| reflexivity].
  rewrite !m_bind_lift_Ok.
  destruct (get_name pred) as [name | e |]; [| reflexivity..].
  rewrite !m_bind_lift_Ok.
  destruct (decide (name ∈ ["is"; "cut"; "fail"])) as [Hsp | Hsp].
  - destruct (decide (name = "is")) as [-> | Hnis].
    + repeat (apply on_ok_bind; intros ? ?).
      destruct a2 as [q |].
      * destruct (negb (value_eqb (Some q) a4)); cbn [m_ret on_ok fst snd app];
          rewrite app_nil_r; reflexivity.
      * repeat (apply on_ok_bind; intros ? ?).
        cbn [m_ret on_ok fst snd app]. rewrite app_nil_r. reflexivity.
    + destruct (decide (name = "cut")) as [-> | Hncut].
      * cbn [m_ret on_ok fst snd]. rewrite app_nil_r. reflexivity.
      * rewrite bool_decide_eq_false_2 by exact Hncut.
        cbn [m_ret on_ok fst snd app]. rewrite app_nil_r. reflexivity.
  - assert (Hncut : name <> "cut").
    { intros ->. apply Hsp. rewrite !elem_of_cons. auto. }
    rewrite bool_decide_eq_false_2 by exact Hncut.
    destruct (builtins self !! name) as [builtin |].
    + apply on_ok_bind. intros [|] st1; cbn [m_ret on_ok fst snd app];
        rewrite ?app_nil_r; reflexivity.
    + apply on_ok_bind. intros clauses st1.
      destruct (decide (List.length clauses = 0)); [reflexivity |].
      unfold m_bind, m_ret. rewrite try_clauses_local.
      destruct (try_clauses fuel self pred g clauses [] st1) as [[new | e |] st2];
        cbn [on_ok fst snd app]; rewrite ?app_nil_r; reflexivity.
Qed.

(** A turn adds a solution exactly when it takes a finished root frame:
    that frame's environment, at the end of the list. *)
Lemma step_solutions fuel self g queue solutions st q' solutions' st' :
  step fuel self g queue solutions st = (Ok (q', solutions'), st') ->
  solutions' = solutions ++ (if finished_root g then [g_env g] else []).
Proof.
  intros Hrun. unfold finished_root.
  pose proof (step_shape _ _ _ _ _ _ _ _ _ Hrun) as [_ Hsol].
  destruct (decide (List.length (g_terms g) <= g_inx g)) as [Hfin | Hmore].
  - rewrite bool_decide_eq_true_2 by exact Hfin. cbn [andb].
    destruct (g_parent g) as [gp |] eqn:Hp.
    + rewrite app_nil_r. destruct Hsol as [-> | (? & _)]; [reflexivity | discriminate].
    + unfold step in Hrun.
      destruct (decide (List.length (g_terms g) <= g_inx g)); [| contradiction].
      rewrite Hp in Hrun. apply m_ret_Ok in Hrun as [[= _ ->] _]. reflexivity.
  - rewrite bool_decide_eq_false_2 by exact Hmore. cbn [andb]. rewrite app_nil_r.
    destruct Hsol as [-> | (_ & ? & _)]; [reflexivity | contradiction].
Qed.

(** The solutions are the environments of the finished root frames, in
    the order in which the loop takes them. *)
Lemma search_loop_solutions fuel self :
  forall queue solutions st out st',
    search_loop fuel self queue solutions st = (Ok out, st') ->
    out = solutions ++
          (g_env <$> List.filter finished_root (search_trace fuel self queue solutions st)).
Proof.
  induction fuel as [| fuel IH]; intros queue solutions st out st' Hrun; [discriminate |].
  cbn [search_loop search_trace] in *.
  destruct (pop queue) as [[g queue'] |].
  - destruct (step fuel self g queue' solutions st) as [[[queue2 solutions2] | e |] st2] eqn:Hstep;
      try discriminate.
    apply step_solutions in Hstep as ->.
    apply IH in Hrun as ->. cbn [List.filter].
    destruct (finished_root g); cbn [fmap list_fmap]; rewrite <- ?app_assoc, ?app_nil_r;
      reflexivity.
  - injection Hrun as <- <-. cbn. rewrite app_nil_r. reflexivity.
Qed.

(** First in, first out: as long as no [cut] is met, the frames of the
    queue are taken from its end, the oldest first, whatever the turns
    in between add. *)
Lemma search_trace_fifo self :
  forall i fuel queue solutions st h,
    i < List.length queue ->
    Forall (fun h => at_cut h = false) (take i (rev queue)) ->
    search_trace fuel self queue solutions st !! i = Some h ->
    rev queue !! i = Some h.
Proof.
  induction i as [| i IH]; intros fuel queue solutions st h Hi Hcut Htr;
    (destruct queue as [| g queue' _] using rev_ind; [cbn in Hi; lia |]);
    (destruct fuel as [| fuel]; [discriminate |]);
    cbn [search_trace] in Htr; rewrite pop_snoc in Htr;
    rewrite rev_app_distr in *; cbn [rev app] in *.
  - exact Htr.
  - cbn [lookup list_lookup] in Htr |- *. cbn [take] in Hcut.
    apply Forall_cons in Hcut as [Hg Hcut].
    rewrite length_app in Hi. cbn in Hi.
    destruct (step fuel self g queue' solutions st) as [[[queue2 solutions2] | e |] st2] eqn:Hstep;
      try discriminate.
    apply step_shape in Hstep as [[[new ->] | [Hc _]] _]; [| congruence].
    apply IH in Htr.
    + rewrite rev_app_distr in Htr. rewrite lookup_app_l in Htr; [exact Htr |].
      rewrite length_rev. lia.
    + rewrite length_app. lia.
    + rewrite rev_app_distr, take_app_le by (rewrite length_rev; lia). exact Hcut.
Qed.

(** The same for [search]: its solutions are the environments of the
    finished root frames among the goals it considers, in that order. *)
Lemma search_solutions fuel self clause env st out st' :
  body clause <> None ->
  search fuel self clause env st = (Ok out, st') ->
  out = g_env <$> List.filter finished_root (search_considered fuel self clause env st).
Proof.
  unfold search, search_considered. intros Hbody Hrun.
  destruct (body clause) as [[n | f | s | l | bname bargs] |]; try discriminate; [| contradiction].
  unfold PrologGoal_init, alloc in *.
  apply search_loop_solutions in Hrun. exact Hrun.
Qed.

(** C7, as the code has it: the queue is first in, first out.  A frame
    goes in at index 0 and [pop] takes the last element.  When the loop
    takes a finished non-root frame [g] while the frames [pending] are
    waiting, none of them at a [cut], the frames it takes next are the
    pending ones, every one of them and the oldest first; the
    continuation of [g] (the copy of its parent, advanced by one) is
    taken only after them.  The solutions the loop returns are the
    environments of the finished root frames in the order taken. *)
Theorem completion_waits_behind_pending
    (fuel : nat) (self : PrologRuntime) (g gp : PrologGoal) (pending : list PrologGoal)
    (solutions : list loc) (st : Store) :
  List.length (g_terms g) <= g_inx g ->
  g_parent g = Some gp ->
  Forall (fun h => at_cut h = false) pending ->
  search_trace (S fuel) self (pending ++ [g]) solutions st !! 0 = Some g /\
  (forall i h, i < List.length pending ->
     search_trace (S fuel) self (pending ++ [g]) solutions st !! (S i) = Some h ->
     rev pending !! i = Some h) /\
  (forall cont,
     search_trace (S fuel) self (pending ++ [g]) solutions st !! (S (List.length pending))
       = Some cont ->
     g_head cont = g_head gp /\ g_terms cont = g_terms gp /\ g_inx cont = g_inx gp + 1) /\
  (forall out st',
     search_loop (S fuel) self (pending ++ [g]) solutions st = (Ok out, st') ->
     out = solutions ++
           (g_env <$> List.filter finished_root
                        (search_trace (S fuel) self (pending ++ [g]) solutions st))).
Proof.
  intros Hfin Hp Hcut.
  split; [cbn [search_trace]; rewrite pop_snoc; reflexivity |].
  assert (Hturn : forall q' solutions' st',
            step fuel self g pending solutions st = (Ok (q', solutions'), st') ->
            exists cont, q' = cont :: pending /\
              g_head cont = g_head gp /\ g_terms cont = g_terms gp /\ g_inx cont = g_inx gp + 1).
  { intros q' solutions' st' Hrun. unfold step in Hrun.
    destruct (decide (List.length (g_terms g) <= g_inx g)); [| contradiction].
    rewrite Hp in Hrun.
    apply m_bind_Ok in Hrun as (parent & st1 & Hcopy & Hrun).
    apply m_bind_Ok in Hrun as (pterm & st2 & _ & Hrun).
    apply m_bind_Ok in Hrun as (ans & st3 & _ & Hrun).
    apply m_ret_Ok in Hrun as [[= -> _] _].
    unfold m_deepcopy_goal in Hcopy.
    pose proof (deepcopy_goal_fields gp st) as (Hh & Ht & Hi).
    destruct (deepcopy_goal gp st) as [p1 s1]. injection Hcopy as -> _. cbn [fst] in *.
    exists (advance parent). repeat split; destruct parent; cbn in *; congruence. }
  split; [| split].
  - intros i h Hi Htr. cbn [search_trace] in Htr. rewrite pop_snoc in Htr.
    cbn [lookup list_lookup] in Htr.
    destruct (step fuel self g pending solutions st) as [[[q' solutions'] | e |] st'] eqn:Hstep;
      try discriminate.
    destruct (Hturn _ _ _ eq_refl) as (cont & -> & _).
    apply search_trace_fifo in Htr.
    + cbn [rev] in Htr. rewrite lookup_app_l in Htr by (rewrite length_rev; exact Hi).
      exact Htr.
    + cbn. lia.
    + cbn [rev]. rewrite take_app_le by (rewrite length_rev; lia).
      apply Forall_take, Forall_rev, Hcut.
  - intros c Htr. cbn [search_trace] in Htr. rewrite pop_snoc in Htr.
    cbn [lookup list_lookup] in Htr.
    destruct (step fuel self g pending solutions st) as [[[q' solutions'] | e |] st'] eqn:Hstep;
      try discriminate.
    destruct (Hturn _ _ _ eq_refl) as (cont & -> & Hfields).
    apply search_trace_fifo in Htr.
    + cbn [rev] in Htr. rewrite lookup_app_r in Htr by (rewrite length_rev; lia).
      rewrite length_rev, Nat.sub_diag in Htr. injection Htr as <-. exact Hfields.
    + cbn. lia.
    + cbn [rev]. rewrite take_app_le by (rewrite length_rev; lia).
      apply Forall_take, Forall_rev, Hcut.
  - intros out st'. apply search_loop_solutions.
Qed.

(** [store] adds its clause at the end of what a lookup returns. *)
Lemma persisted_store d m c n :
  persisted (LogicDB_store d m c) n =
  persisted d n ++ (if decide (head_name c = n) then [c] else []).
Proof.
  unfold persisted, LogicDB_store. rewrite filter_app, fmap_app. f_equal.
  rewrite filter_cons, filter_nil. cbn [orm_head].
  destruct (decide (head_name c = n)); reflexivity.
Qed.

(** A subgoal that is neither special nor built in is resolved against
    the clauses the lookup of its name returns, in that order. *)
Lemma step_database_predicate fuel self g name args queue solutions st :
  g_terms g !! g_inx g = Some (Predicate name args) ->
  name ∉ ["is"; "cut"; "fail"] ->
  builtins self !! name = None ->
  persisted (db self) name <> [] ->
  step fuel self g queue solutions st =
  on_ok (fun new => (new, solutions))
    (try_clauses fuel self (Predicate name args) g (persisted (db self) name) queue st).
Proof.
  intros Hpred Hspecial Hb Hne. unfold step.
  destruct (decide (List.length (g_terms g) <= g_inx g)) as [Hfin | _].
  { apply lookup_lt_Some in Hpred. lia. }
  unfold py_index. rewrite Hpred. rewrite m_bind_lift_Ok. cbn [get_name].
  rewrite m_bind_lift_Ok.
  destruct (decide (name ∈ ["is"; "cut"; "fail"])); [contradiction |].
  match goal with
  | |- match ?x with _ => _ end _ = _ => replace x with (@None BuiltinPredicate) by (symmetry; exact Hb)
  end.
  cbn [LogicDB_lookup fst]. rewrite m_bind_lift_Ok.
  fold (persisted (db self) name).
  destruct (decide (List.length (persisted (db self) name) = 0)) as [Hz | _].
  { destruct (persisted (db self) name); [congruence | discriminate]. }
  unfold m_bind, m_ret.
  destruct (try_clauses fuel self (Predicate name args) g (persisted (db self) name) queue st)
    as [[new | e |] st1]; reflexivity.
Qed.

(** C1, as the code has it: solutions come in the first-in-first-out
    order of the goal queue.  (1) The solutions [search] and its loop
    return are the environments of the finished root frames, in the
    order in which the loop takes them.  (2) The loop takes the pending
    frames oldest first: as long as no [cut] is met, the [i]-th frame
    taken is the [i]-th oldest of the queue, whatever the turns in
    between add.
    (3) The frames a turn creates wait behind every pending frame; only
    [cut] drops the pending ones.  (4) Candidate clauses are tried in
    database-insertion order: [store] adds a clause at the end of what
    a lookup of its name returns, and a turn on a database predicate
    puts the frames of later clauses in front of those of earlier ones,
    which are thus taken first.  (5) On the family database
    [grandparent(tom, Z)] has exactly the solutions [Z = ann], then
    [Z = pat]. *)
Theorem search_enumerates_in_queue_order :
  (forall (fuel : nat) (self : PrologRuntime) (clause : Clause) (env : loc)
          (out : list loc) (st st' : Store),
      body clause <> None ->
      search fuel self clause env st = (Ok out, st') ->
      out = g_env <$> List.filter finished_root (search_considered fuel self clause env st)) /\
  (forall (fuel : nat) (self : PrologRuntime) (queue : list PrologGoal)
          (solutions out : list loc) (st st' : Store),
      search_loop fuel self queue solutions st = (Ok out, st') ->
      out = solutions ++
            (g_env <$> List.filter finished_root (search_trace fuel self queue solutions st))) /\
  (forall (fuel : nat) (self : PrologRuntime) (queue : list PrologGoal)
          (solutions : list loc) (st : Store) (i : nat) (h : PrologGoal),
      i < List.length queue ->
      Forall (fun h => at_cut h = false) (take i (rev queue)) ->
      search_trace fuel self queue solutions st !! i = Some h ->
      rev queue !! i = Some h) /\
  (forall (fuel : nat) (self : PrologRuntime) (g : PrologGoal) (queue : list PrologGoal)
          (solutions : list loc) (st : Store),
      search_loop (S fuel) self (queue ++ [g]) solutions st =
      match step fuel self g [] [] st with
      | (Ok (spawned, found), st2) =>
          search_loop fuel self (if at_cut g then spawned else spawned ++ queue)
            (solutions ++ found) st2
      | (Raise e, st2) => (Raise e, st2)
      | (Timeout, st2) => (Timeout, st2)
      end) /\
  (forall (d : LogicDB) (module : string) (c : Clause) (name : string),
      persisted (LogicDB_store d module c) name =
      persisted d name ++ (if decide (head_name c = name) then [c] else [])) /\
  (forall (fuel : nat) (self : PrologRuntime) (g : PrologGoal) (name : string)
          (args : list Term) (cs1 cs2 : list Clause) (queue : list PrologGoal)
          (solutions : list loc) (st : Store),
      g_terms g !! g_inx g = Some (Predicate name args) ->
      name ∉ ["is"; "cut"; "fail"] ->
      builtins self !! name = None ->
      persisted (db self) name = cs1 ++ cs2 ->
      cs1 ++ cs2 <> [] ->
      step fuel self g queue solutions st =
      match try_clauses fuel self (Predicate name args) g cs1 [] st with
      | (Ok new1, st1) =>
          match try_clauses fuel self (Predicate name args) g cs2 [] st1 with
          | (Ok new2, st2) => (Ok (new2 ++ new1 ++ queue, solutions), st2)
          | (Raise e, st2) => (Raise e, st2)
          | (Timeout, st2) => (Timeout, st2)
          end
      | (Raise e, st1) => (Raise e, st1)
      | (Timeout, st1) => (Timeout, st1)
      end) /\
  (forall (B : BuiltinsModule) (k : nat),
      run_query (40 + k) B family (Predicate "grandparent" [atom "tom"; Var "Z"])
      = Ok [ {[ "Z" := Some (atom "ann") ]}; {[ "Z" := Some (atom "pat") ]} ]).
Proof.
  split; [intros; eapply search_solutions; eassumption |].
  split; [intros; eapply search_loop_solutions; eassumption |].
  split; [intros; eapply search_trace_fifo; eassumption |].
  split.
  { intros fuel self g queue solutions st. cbn [search_loop].
    rewrite pop_snoc, step_local.
    destruct (step fuel self g [] [] st) as [[[spawned found] | e |] st2]; reflexivity. }
  split; [intros; apply persisted_store |].
  split.
  { intros fuel self g name args cs1 cs2 queue solutions st Hpred Hspecial Hb Hsplit Hne.
    rewrite (step_database_predicate fuel self g name args) by (rewrite ?Hsplit; assumption).
    rewrite Hsplit, try_clauses_app.
    destruct (try_clauses fuel self (Predicate name args) g cs1 [] st) as [[new1 | e |] st1];
      [| reflexivity..].
    destruct (try_clauses fuel self (Predicate name args) g cs2 [] st1) as [[new2 | e |] st2];
      reflexivity. }
  intros B k. vm_compute. reflexivity.
Qed.

(** C4, what the code does: with the left side unbound, [is] stores the
    evaluator's [None] under the variable's name and succeeds, so the
    query [is(X, +(a,1))] has one solution, in which [X] is [None]. *)
Theorem is_binds_None_and_succeeds (B : BuiltinsModule) (k : nat) (one : num) :
  prolog_eval (3 + k) (PrologRuntime_init B (db_of []))
    (Predicate "+" [atom "a"; NumberLiteral one]) ∅ = Ok None /\
  run_query (40 + k) B []
    (Predicate "is" [Var "X"; Predicate "+" [atom "a"; NumberLiteral one]])
  = Ok [ {[ "X" := None ]} ].
Proof. split; vm_compute; reflexivity. Qed.

(** ** The database and its overlay *)

Lemma named_cons n (c : Clause) cs :
  named n (c :: cs) = (if decide (head_name c = n) then [c] else []) ++ named n cs.
Proof. unfold named. rewrite filter_cons. destruct (decide (head_name c = n)); reflexivity. Qed.

Lemma asserted_assertz ov c n :
  asserted (LogicDBOverlay_assertz ov c) n =
  asserted ov n ++ (if decide (head_name c = n) then [c] else []).
Proof.
  unfold asserted, LogicDBOverlay_assertz.
  destruct (d_assertz ov !! head_name c) as [cs |] eqn:E; cbn [d_assertz];
    destruct (decide (head_name c = n)) as [<- | Hne].
  - rewrite lookup_insert_eq, E. reflexivity.
  - rewrite lookup_insert_ne by exact Hne. rewrite app_nil_r. reflexivity.
  - rewrite lookup_insert_eq, E. reflexivity.
  - rewrite lookup_insert_ne by exact Hne. rewrite app_nil_r. reflexivity.
Qed.

Lemma retracted_assertz ov c :
  d_retracted (LogicDBOverlay_assertz ov c) = d_retracted ov.
Proof.
  unfold LogicDBOverlay_assertz. destruct (d_assertz ov !! head_name c); reflexivity.
Qed.

Lemma asserted_assertz_all new : forall ov n,
  asserted (foldl LogicDBOverlay_assertz ov new) n = asserted ov n ++ named n new.
Proof.
  induction new as [| c new IH]; intros ov n; cbn [foldl].
  - unfold named. rewrite filter_nil, app_nil_r. reflexivity.
  - rewrite IH, asserted_assertz, named_cons, app_assoc. reflexivity.
Qed.

Lemma retracted_assertz_all new : forall ov,
  d_retracted (foldl LogicDBOverlay_assertz ov new) = d_retracted ov.
Proof.
  induction new as [| c new IH]; intros ov; cbn [foldl]; [reflexivity |].
  rewrite IH. apply retracted_assertz.
Qed.

Lemma persisted_store_all (stored : list (string * Clause)) : forall d n,
  persisted (foldl (fun d mc => LogicDB_store d mc.1 mc.2) d stored) n =
  persisted d n ++ named n (stored.*2).
Proof.
  induction stored as [| [m c] stored IH]; intros d n; cbn [foldl fmap list_fmap fst snd].
  - unfold named. rewrite filter_nil, app_nil_r. reflexivity.
  - rewrite IH. cbn [fst snd]. rewrite persisted_store, named_cons, app_assoc. reflexivity.
Qed.

(** C8: with nothing retracted, a lookup returns the clauses stored
    under the name, in the order they were stored, and then the
    overlay's clauses for the name, in the order they were asserted;
    the database it leaves is the database it was given.  Stated for a
    database and an overlay extended by any further [store] and
    [assertz] calls. *)
Theorem lookup_database_then_overlay
    (d : LogicDB) (ov : LogicDBOverlay) (stored : list (string * Clause))
    (new : list Clause) (n : string) :
  d_retracted ov = ∅ ->
  let d' := foldl (fun d mc => LogicDB_store d mc.1 mc.2) d stored in
  let ov' := foldl LogicDBOverlay_assertz ov new in
  LogicDB_lookup d' n (Some ov') =
    (Ok ((persisted d n ++ named n (stored.*2)) ++ (asserted ov n ++ named n new)), d').
Proof.
  intros Hret d' ov'. unfold LogicDB_lookup, LogicDBOverlay_do_filter. f_equal.
  assert (Hr : d_retracted ov' !! n = None).
  { unfold ov'. rewrite retracted_assertz_all, Hret. apply lookup_empty. }
  rewrite Hr.
  pose proof (asserted_assertz_all new ov n) as Ha. fold ov' in Ha.
  pose proof (persisted_store_all stored d n) as Hp. fold d' in Hp.
  unfold persisted in Hp at 1. rewrite Hp.
  unfold asserted in Ha at 1.
  destruct (d_assertz ov' !! n) as [cs |]; cbn [default] in Ha; rewrite <- Ha;
    [reflexivity | rewrite app_nil_r; reflexivity].
Qed.

(** ** Unification of inert terms *)

Lemma Term_args_ind (P : Term -> Prop) :
  (forall n, P (Var n)) ->
  (forall f, P (NumberLiteral f)) ->
  (forall s, P (StringLiteral s)) ->
  (forall l, Forall P l -> P (ListLiteral l)) ->
  (forall name args, Forall P args -> P (Predicate name args)) ->
  forall t, P t.
Proof.
  intros Hv Hn Hs Hl Hp. fix ind 1. intros [n | f | s | l | name args].
  - apply Hv.
  - apply Hn.
  - apply Hs.
  - apply Hl. induction l as [| x l IHl]; constructor; [apply ind | exact IHl].
  - apply Hp. induction args as [| x args IHa]; constructor; [apply ind | exact IHa].
Qed.

Lemma term_eqb_Predicate n1 a1 n2 a2 :
  term_eqb (Predicate n1 a1) (Predicate n2 a2) = bool_decide (n1 = n2) && terms_eqb a1 a2.
Proof.
  reflexivity.
Qed.

Lemma term_eqb_ListLiteral l1 l2 :
  term_eqb (ListLiteral l1) (ListLiteral l2) = terms_eqb l1 l2.
Proof.
  reflexivity.
Qed.

Lemma terms_eqb_sym xs :
  Forall (fun x => forall y, term_eqb x y = term_eqb y x) xs ->
  forall ys, terms_eqb xs ys = terms_eqb ys xs.
Proof.
  induction 1 as [| x xs Hx _ IH]; intros [| y ys]; try reflexivity.
  cbn [terms_eqb]. rewrite Hx, IH. reflexivity.
Qed.

Lemma term_eqb_sym :
  (forall x y : num, num_eqb x y = num_eqb y x) ->
  forall a b, term_eqb a b = term_eqb b a.
Proof.
  intros Hnum a. induction a as [n | f | s | l IH | name args IH] using Term_args_ind;
    intros [n' | f' | s' | l' | name' args']; try reflexivity.
  - cbn. apply bool_decide_ext. split; congruence.
  - cbn. apply Hnum.
  - cbn. apply bool_decide_ext. split; congruence.
  - rewrite !term_eqb_ListLiteral. apply terms_eqb_sym, IH.
  - rewrite !term_eqb_Predicate. f_equal.
    + apply bool_decide_ext. split; congruence.
    + apply terms_eqb_sym, IH.
Qed.

Lemma terms_eqb_length xs : forall ys,
  List.length xs <> List.length ys -> terms_eqb xs ys = false.
Proof.
  induction xs as [| x xs IH]; intros [| y ys] Hlen; cbn in *; try congruence.
  rewrite IH by congruence. apply andb_false_r.
Qed.

Lemma evaluable_false self name :
  evaluable self name = false ->
  unary_operators name = None /\ binary_operators name = None /\
  builtin_functions self !! name = None.
Proof.
  unfold evaluable.
  destruct (unary_operators name), (binary_operators name), (builtin_functions self !! name);
    try discriminate; auto.
Qed.

(** On a predicate whose name is not evaluable, the evaluator rebuilds
    the predicate from its evaluated arguments. *)
Lemma prolog_eval_inert_Predicate fuel self name args env :
  evaluable self name = false ->
  prolog_eval (S fuel) self (Predicate name args) env =
  res_bind (eval_args (fun arg => prolog_eval fuel self arg env) args [])
    (fun r => match r with
              | Some args' => Ok (Some (Predicate name args'))
              | None => Ok None
              end).
Proof.
  intros He. apply evaluable_false in He as (Hu & Hb & Hf).
  cbn [prolog_eval]. rewrite Hu, Hb.
  match goal with
  | |- context [match ?x with Some fn => _ | None => _ end] =>
      replace x with (@None BuiltinFunction) by (symmetry; exact Hf)
  end.
  destruct (decide (List.length args = 1)); reflexivity.
Qed.

Lemma eval_args_same (ev : Term -> Res (option Term)) todo :
  Forall (fun a => ev a = Ok (Some a)) todo ->
  forall acc, eval_args ev todo acc = Ok (Some (acc ++ todo)).
Proof.
  induction 1 as [| a todo Ha _ IH]; intros acc; cbn [eval_args].
  - rewrite app_nil_r. reflexivity.
  - rewrite Ha, IH, <- app_assoc. reflexivity.
Qed.

Lemma eval_args_returns (ev : Term -> Res (option Term)) todo :
  Forall (fun a => exists v, ev a = Ok v) todo ->
  forall acc, exists r, eval_args ev todo acc = Ok r.
Proof.
  induction 1 as [| a todo [v Ha] _ IH]; intros acc; cbn [eval_args]; [eauto |].
  rewrite Ha. destruct v; [apply IH | eauto].
Qed.

Lemma tsize_arg (args : list Term) a : a ∈ args -> tsize a <= list_sum (map tsize args).
Proof.
  induction 1 as [a args | a b args _ IH]; unfold list_sum in *; cbn [map fold_right]; lia.
Qed.

Lemma prolog_eval_ground self t :
  inert self t = true -> ground t = true ->
  forall fuel env, tsize t <= fuel -> prolog_eval fuel self t env = Ok (Some t).
Proof.
  induction t as [n | f | s | l _ | name args IH] using Term_args_ind;
    intros Hi Hg fuel env Hfuel; try discriminate;
    (destruct fuel as [| fuel]; [cbn in Hfuel; lia |]); try reflexivity.
  cbn [inert] in Hi. apply andb_true_iff in Hi as [He Hi]. apply negb_true_iff in He.
  cbn [ground] in Hg. rewrite prolog_eval_inert_Predicate by exact He.
  rewrite eval_args_same; [reflexivity |].
  rewrite Forall_forall in IH. apply Forall_forall. intros a Ha.
  rewrite forallb_forall in Hi, Hg.
  apply IH; [exact Ha | apply Hi, list_elem_of_In, Ha | apply Hg, list_elem_of_In, Ha |].
  pose proof (tsize_arg args a Ha). cbn [tsize] in Hfuel. lia.
Qed.

Lemma prolog_eval_unbound fuel self n env :
  env_get env n = None -> prolog_eval (S fuel) self (Var n) env = Ok None.
Proof. intros Hn. cbn [prolog_eval]. rewrite Hn. reflexivity. Qed.

Lemma prolog_eval_inert_returns self t :
  inert self t = true ->
  forall fuel, tsize t <= fuel -> exists v, prolog_eval fuel self t ∅ = Ok v.
Proof.
  induction t as [n | f | s | l _ | name args IH] using Term_args_ind;
    intros Hi fuel Hfuel;
    (destruct fuel as [| fuel]; [cbn in Hfuel; lia |]); try (cbn; eauto; fail).
  - cbn [inert] in Hi. apply andb_true_iff in Hi as [He Hi]. apply negb_true_iff in He.
    rewrite prolog_eval_inert_Predicate by exact He.
    destruct (eval_args_returns (fun arg => prolog_eval fuel self arg ∅) args) with (acc := @nil Term)
      as [r Hr].
    + rewrite Forall_forall in IH. apply Forall_forall. intros a Ha.
      rewrite forallb_forall in Hi.
      apply IH; [exact Ha | apply Hi, list_elem_of_In, Ha |].
      pose proof (tsize_arg args a Ha). cbn [tsize] in Hfuel. lia.
    + rewrite Hr. cbn. destruct r; eauto.
Qed.

Ltac rewrite_eval_ground :=
  repeat match goal with
  | Hi : inert ?sf ?x = true, Hg : ground ?x = true
    |- context [prolog_eval ?n ?sf ?x ?e] =>
      rewrite (prolog_eval_ground sf x Hi Hg n e) by (cbn [tsize] in *; lia)
  end.

Lemma read_write_eq (d : loc) (e : Env) (st : Store) :
  d < List.length st -> read (write d e st) d = e.
Proof.
  intros Hd. unfold read, write. rewrite list_lookup_insert_eq by exact Hd. reflexivity.
Qed.

Lemma prolog_eval_literal fuel self v env :
  is_Literal v = true -> prolog_eval (S fuel) self v env = Ok (Some v).
Proof. destruct v; try discriminate; reflexivity. Qed.

Lemma matches_Predicate n1 a1 n2 a2 :
  matches (Predicate n1 a1) (Predicate n2 a2) = bool_decide (n1 = n2) && matches_args a1 a2.
Proof. reflexivity. Qed.

Lemma matches_args_sym xs :
  Forall (fun x => forall y, matches x y = matches y x) xs ->
  forall ys, matches_args xs ys = matches_args ys xs.
Proof.
  induction 1 as [| x xs Hx _ IH]; intros [| y ys]; try reflexivity.
  cbn [matches_args]. rewrite Hx, IH. reflexivity.
Qed.

Lemma matches_sym :
  (forall x y : num, num_eqb x y = num_eqb y x) ->
  forall a b, matches a b = matches b a.
Proof.
  intros Hnum a. induction a as [n | f | s | l IH | name args IH] using Term_args_ind;
    intros [n' | f' | s' | l' | name' args']; try reflexivity.
  - cbn. apply Hnum.
  - cbn. apply bool_decide_ext. split; congruence.
  - change (term_eqb (ListLiteral l) (ListLiteral l') = term_eqb (ListLiteral l') (ListLiteral l)).
    apply term_eqb_sym, Hnum.
  - rewrite !matches_Predicate. f_equal.
    + apply bool_decide_ext. split; congruence.
    + apply matches_args_sym, IH.
Qed.

Lemma matches_args_length xs : forall ys,
  List.length xs <> List.length ys -> matches_args xs ys = false.
Proof.
  induction xs as [| x xs IH]; intros [| y ys] Hlen; cbn in *; try congruence.
  rewrite IH by congruence. apply andb_false_r.
Qed.

Lemma eval_args_ext (ev ev' : Term -> Res (option Term)) todo :
  Forall (fun a => ev a = ev' a) todo ->
  forall acc, eval_args ev todo acc = eval_args ev' todo acc.
Proof.
  induction 1 as [| a todo Ha _ IH]; intros acc; cbn [eval_args]; [reflexivity |].
  rewrite Ha. destruct (ev' a) as [[v |] | e |]; auto.
Qed.

(** Where the variables of an inert term are unbound, the environment
    does not matter to its evaluation. *)
Lemma prolog_eval_fresh self t (env : Env) :
  inert self t = true ->
  (forall x, x ∈ vars t -> env_get env x = None) ->
  forall fuel, prolog_eval fuel self t env = prolog_eval fuel self t ∅.
Proof.
  induction t as [n | f | s | l _ | name args IH] using Term_args_ind;
    intros Hi Hfresh [| fuel]; try reflexivity.
  - cbn [prolog_eval]. rewrite Hfresh by (cbn; set_solver). reflexivity.
  - cbn [inert] in Hi. apply andb_true_iff in Hi as [He Hi]. apply negb_true_iff in He.
    rewrite !prolog_eval_inert_Predicate by exact He.
    f_equal. apply eval_args_ext.
    rewrite Forall_forall in IH. apply Forall_forall. intros a Ha.
    rewrite forallb_forall in Hi.
    apply IH; [exact Ha | apply Hi, list_elem_of_In, Ha |].
    intros x Hx. apply Hfresh. cbn [vars].
    apply list_elem_of_In, in_concat. exists (vars a).
    split; [apply in_map, list_elem_of_In, Ha | apply list_elem_of_In, Hx].
Qed.

(** An inert predicate evaluates to a predicate, or to [None] when one
    of its arguments does. *)
Lemma prolog_eval_inert_shape self name args fuel (env : Env) v :
  inert self (Predicate name args) = true ->
  prolog_eval fuel self (Predicate name args) env = Ok (Some v) ->
  exists args', v = Predicate name args'.
Proof.
  intros Hi. destruct fuel as [| fuel]; [discriminate |].
  cbn [inert] in Hi. apply andb_true_iff in Hi as [He _]. apply negb_true_iff in He.
  rewrite prolog_eval_inert_Predicate by exact He.
  destruct (eval_args _ args []) as [[args' |] | e |]; cbn; intros [=]; eauto.
Qed.

Lemma read_modifies_only (d l : loc) (st st' : Store) :
  modifies_only d st st' -> l < List.length st -> l <> d -> read st' l = read st l.
Proof. intros [_ F] Hl Hd. unfold read. rewrite F by assumption. reflexivity. Qed.

(** The argument loop on terms without repeated variables: the scratch
    copy [dde] gains bindings for variables of the destination arguments
    only. *)
Lemma unify_args_linear fuel self se dde sargs :
  Forall (fun s => forall b, inert self b = true -> NoDup (vars b) ->
            forall st, tsize s + tsize b + 2 <= fuel ->
            se <> dde -> se < List.length st -> dde < List.length st ->
            read st se = ∅ ->
            (forall x, x ∈ vars b -> env_get (read st dde) x = None) ->
            exists st', _unify fuel self s se b dde st = (Ok (matches s b), st') /\
              (forall x, x ∉ vars b -> read st' dde !! x = read st dde !! x)) sargs ->
  forall dargs st,
    forallb (inert self) dargs = true -> NoDup (concat (map vars dargs)) ->
    list_sum (map tsize sargs) + list_sum (map tsize dargs) + 2 <= fuel ->
    List.length sargs = List.length dargs ->
    se <> dde -> se < List.length st -> dde < List.length st ->
    read st se = ∅ ->
    (forall x, x ∈ concat (map vars dargs) -> env_get (read st dde) x = None) ->
    exists st', unify_args (fun s d => _unify fuel self s se d dde) sargs dargs st
                = (Ok (matches_args sargs dargs), st') /\
      (forall x, x ∉ concat (map vars dargs) -> read st' dde !! x = read st dde !! x).
Proof.
  induction 1 as [| s sargs Hs _ IH];
    intros [| d dargs] st Hi Hnd Hsize Hlen Hne Hse Hdde Hempty Hfresh;
    try discriminate; [cbn; eauto |].
  cbn [forallb] in Hi. apply andb_true_iff in Hi as [Hid Hi].
  cbn [map concat] in Hnd, Hfresh |- *.
  apply NoDup_app in Hnd as (Hnd1 & Hdisj & Hnd2).
  unfold list_sum in Hsize. cbn [map fold_right] in Hsize.
  fold (list_sum (map tsize sargs)) in Hsize. fold (list_sum (map tsize dargs)) in Hsize.
  destruct (Hs d Hid Hnd1 st) as (st1 & Hrun & Hkeep1); try assumption; [lia | |].
  { intros x Hx. apply Hfresh. (rewrite ?elem_of_app in *; tauto). }
  pose proof (proj1 (_unify_modifies fuel self s se d dde st Hdde)) as Hmod.
  rewrite Hrun in Hmod. cbn [snd] in Hmod.
  cbn [unify_args matches_args]. rewrite Hrun.
  destruct (matches s d); cbn [andb].
  - destruct (IH dargs st1) as (st2 & Hloop & Hkeep2); try assumption.
    + lia.
    + cbn in Hlen. lia.
    + destruct Hmod. lia.
    + destruct Hmod. lia.
    + rewrite (read_modifies_only dde se st st1) by assumption. exact Hempty.
    + intros x Hx. unfold env_get. rewrite Hkeep1 by (intros Hin; eapply Hdisj; eassumption).
      apply (Hfresh x). (rewrite ?elem_of_app in *; tauto).
    + exists st2. split; [exact Hloop |].
      intros x Hx. rewrite Hkeep2 by (rewrite ?elem_of_app in *; tauto). apply Hkeep1. (rewrite ?elem_of_app in *; tauto).
  - exists st1. split; [reflexivity |].
    intros x Hx. apply Hkeep1. (rewrite ?elem_of_app in *; tauto).
Qed.

(** Unification of inert terms into a destination without repeated
    variables, all of them unbound, from an empty source environment:
    the answer is [matches], and the destination gains bindings for its
    own variables only. *)
Lemma _unify_linear self a :
  inert self a = true ->
  forall b, inert self b = true -> NoDup (vars b) ->
  forall fuel se de st,
    tsize a + tsize b + 2 <= fuel ->
    se <> de -> se < List.length st -> de < List.length st ->
    read st se = ∅ ->
    (forall x, x ∈ vars b -> env_get (read st de) x = None) ->
    exists st', _unify fuel self a se b de st = (Ok (matches a b), st') /\
      (forall x, x ∉ vars b -> read st' de !! x = read st de !! x).
Proof.
  assert (Hpos : forall t, 1 <= tsize t) by (intros []; cbn; lia).
  induction a as [n | f | s | l _ | sname sargs IH] using Term_args_ind;
    intros Hia b Hib Hnd fuel se de st Hfuel Hne Hse Hde Hempty Hfresh;
    (destruct fuel as [| fuel]; [lia |]);
    assert (Hinner : exists fuel', fuel = S fuel')
      by (destruct fuel; [pose proof (Hpos b); cbn [tsize] in Hfuel; lia | eauto]).
  { (* a source variable, unbound *)
    destruct Hinner as [fuel' ->].
    cbn [_unify]. rewrite Hempty. rewrite prolog_eval_unbound by reflexivity. eauto. }
  1-3: destruct b as [dn | f' | s' | l' | dname dargs]; cbn [_unify is_Literal];
    destruct Hinner as [fuel' ->].
  1,6,11: rewrite (prolog_eval_unbound fuel' self dn) by (apply Hfresh; cbn; left);
    cbn [prolog_eval]; eexists; (split; [reflexivity |]);
    intros x Hx; rewrite read_write_eq by exact Hde;
    apply lookup_insert_ne; intros ->; apply Hx; cbn; left.
  1-3,5-7,9-11: cbn [prolog_eval]; eexists; split; reflexivity.
  1-3: rewrite prolog_eval_literal by reflexivity;
    rewrite (prolog_eval_fresh self (Predicate dname dargs) (read st de) Hib Hfresh);
    destruct (prolog_eval_inert_returns self _ Hib (S fuel')) as [v Hv]; [lia |];
    rewrite Hv; destruct v as [v |]; [| eexists; split; reflexivity];
    apply prolog_eval_inert_shape in Hv as [args' ->]; [| exact Hib];
    eexists; split; reflexivity.
  destruct b as [dn | f' | s' | l' | dname dargs]; cbn [_unify is_Literal];
    try (eexists; split; reflexivity).
  { destruct Hinner as [fuel' ->].
    rewrite (prolog_eval_unbound fuel' self dn) by (apply Hfresh; cbn; left).
    rewrite Hempty.
    destruct (prolog_eval_inert_returns self _ Hia (S fuel')) as [v Hv]; [lia |].
    rewrite Hv. eexists. split; [reflexivity |].
    intros x Hx. rewrite read_write_eq by exact Hde.
    apply lookup_insert_ne. intros ->. apply Hx. cbn. left. }
  rewrite matches_Predicate.
  destruct (decide (sname <> dname)) as [Hn | Heq].
  { rewrite bool_decide_eq_false_2 by exact Hn. eauto. }
  rewrite bool_decide_eq_true_2 by (destruct (decide (sname = dname)); [assumption | contradiction]).
  cbn [andb].
  destruct (decide (List.length sargs <> List.length dargs)) as [Hlen | Hlen].
  { rewrite matches_args_length by exact Hlen. eauto. }
  cbn [alloc]. cbv zeta.
  cbn [inert] in Hia, Hib.
  apply andb_true_iff in Hia as [_ Hia]. apply andb_true_iff in Hib as [_ Hib].
  cbn [tsize] in Hfuel. cbn [vars] in Hnd, Hfresh |- *.
  set (st1 := st ++ [read st de]).
  assert (Hlen1 : List.length st1 = S (List.length st)).
  { unfold st1. rewrite length_app. cbn. lia. }
  assert (Hdde1 : read st1 (List.length st) = read st de).
  { unfold st1, read at 1. rewrite lookup_app_r by lia. rewrite Nat.sub_diag. reflexivity. }
  assert (Hold1 : forall l, l < List.length st -> read st1 l = read st l).
  { intros l Hl. unfold st1, read. rewrite lookup_app_l by exact Hl. reflexivity. }
  clear Hinner.
  destruct (unify_args_linear fuel self se (List.length st) sargs) with
    (dargs := dargs) (st := st1) as (st2 & Hloop & Hkeep); try assumption; try lia.
  - rewrite Forall_forall in IH. apply Forall_forall.
    intros s0 Hs0 b0 Hib0 Hnd0 st0 Hsz Hne0 Hse0 Hde0 Hempty0 Hfresh0.
    rewrite forallb_forall in Hia.
    apply IH; try assumption. apply Hia, list_elem_of_In, Hs0.
  - rewrite Hold1 by exact Hse. exact Hempty.
  - intros x Hx. rewrite Hdde1. apply Hfresh, Hx.
  - pose proof (unify_args_modifies (fun s d => _unify fuel self s se d (List.length st))
      (List.length st)
      (fun s t st' Hlt => proj1 (_unify_modifies fuel self s se t (List.length st) st' Hlt))
      sargs dargs st1 ltac:(lia)) as Hmod.
    rewrite Hloop in *. cbn [snd] in Hmod.
    assert (Hde2 : read st2 de = read st de).
    { rewrite (read_modifies_only (List.length st) de st1 st2) by (assumption || lia).
      apply Hold1, Hde. }
    destruct (matches_args sargs dargs).
    + eexists. split; [reflexivity |].
      intros x Hx. rewrite read_write_eq by (destruct Hmod; lia).
      rewrite Hde2, lookup_union, Hkeep, Hdde1 by exact Hx.
      destruct (read st de !! x); reflexivity.
    + eexists. split; [reflexivity |]. intros x _. rewrite Hde2. reflexivity.
Qed.

(** C3, as the code has it: from two empty environments unification
    gives the same answer in both directions when one of the terms is
    itself a variable (it then succeeds both ways), and when neither
    term has a variable occurring twice; the answer is then whether the
    terms agree wherever neither has a variable.  This is for terms
    without operator or built-in function applications, which the
    evaluator would compute.  Equality of numbers is taken symmetric. *)
Theorem _unify_symmetric_on_inert_terms (self : PrologRuntime) (a b : Term) :
  (forall x y : num, num_eqb x y = num_eqb y x) ->
  inert self a = true -> inert self b = true ->
  is_Var a || is_Var b || (linear a && linear b) = true ->
  forall fuel, tsize a + tsize b + 2 <= fuel ->
    unify_empty fuel self a b = Ok (matches a b) /\
    unify_empty fuel self b a = Ok (matches a b).
Proof.
  intros Hnum Hia Hib Hshape.
  assert (Hpos : forall t, 1 <= tsize t) by (intros []; cbn; lia).
  assert (Hsrc : forall n t fuel, 2 <= fuel -> unify_empty fuel self (Var n) t = Ok true).
  { intros n t [| [| fuel]] Hfuel; try lia. reflexivity. }
  assert (Hdest : forall n t fuel, inert self t = true -> tsize t + 2 <= fuel ->
            unify_empty fuel self t (Var n) = Ok true).
  { intros n t [| fuel] Hit Hfuel; [lia |].
    destruct t as [n' | f | s | l | name args]; [apply Hsrc; lia | | | |];
      unfold unify_empty; cbn [_unify];
      (destruct fuel as [| fuel]; [lia |]);
      rewrite prolog_eval_unbound by reflexivity;
      match goal with
      | |- context [prolog_eval (S fuel) self ?t ?e] =>
          destruct (prolog_eval_inert_returns self t Hit (S fuel)) as [v Hv];
          [lia | change e with (∅ : gmap string (option Term)); rewrite Hv; reflexivity]
      end. }
  destruct (is_Var a) eqn:Hva.
  { destruct a as [n | | | |]; try discriminate. intros fuel Hfuel.
    split; [apply Hsrc; lia | apply Hdest; [exact Hib | lia]]. }
  destruct (is_Var b) eqn:Hvb.
  { destruct b as [n | | | |]; try discriminate. intros fuel Hfuel.
    replace (matches a (Var n)) with true by (destruct a; reflexivity).
    split; [apply Hdest; [exact Hia | lia] | apply Hsrc; lia]. }
  cbn [orb] in Hshape. apply andb_true_iff in Hshape as [Hla Hlb].
  unfold linear in Hla, Hlb. apply bool_decide_eq_true_1 in Hla, Hlb.
  intros fuel Hfuel. unfold unify_empty.
  destruct (_unify_linear self a Hia b Hib Hlb fuel 0 1 [∅; ∅]) as (st1 & H1 & _);
    [lia | lia | cbn; lia | cbn; lia | reflexivity | reflexivity |].
  destruct (_unify_linear self b Hib a Hia Hla fuel 0 1 [∅; ∅]) as (st2 & H2 & _);
    [lia | lia | cbn; lia | cbn; lia | reflexivity | reflexivity |].
  rewrite H1, H2. cbn [fst]. split; [reflexivity |].
  rewrite (matches_sym Hnum b a). reflexivity.
Qed.

(** * Further properties *)

(** ** More on unification *)

(** The argument loop runs on the scratch copy, the object added last:
    the objects that were there before keep their contents. *)
Lemma unify_args_scratch fuel self srcEnv sargs dargs (e : Env) (st : Store) :
  let run := unify_args (fun s d => _unify fuel self s srcEnv d (List.length st))
               sargs dargs (st ++ [e]) in
  List.length st < List.length run.2 /\
  forall l, l < List.length st -> run.2 !! l = st !! l.
Proof.
  intros run.
  assert (Hdde : List.length st < List.length (st ++ [e])).
  { rewrite length_app. cbn. lia. }
  pose proof (unify_args_modifies (fun s d => _unify fuel self s srcEnv d (List.length st))
    (List.length st)
    (fun s t st' Hlt => proj1 (_unify_modifies fuel self s srcEnv t (List.length st) st' Hlt))
    sargs dargs (st ++ [e]) Hdde) as [L F].
  fold run in L, F. split; [lia |].
  intros l Hl. rewrite F; [apply lookup_app_l, Hl | lia | lia].
Qed.

(** X1: whatever its outcome, a unification only adds objects to the
    store and, of the objects that existed, changes at most [destEnv];
    [srcEnv], when it is another object, is only read. *)
Theorem _unify_writes_only_destEnv
    (fuel : nat) (self : PrologRuntime) (src dest : Term) (srcEnv destEnv : loc) (st : Store) :
  destEnv < List.length st ->
  List.length st <= List.length (_unify fuel self src srcEnv dest destEnv st).2 /\
  forall l, l < List.length st -> l <> destEnv ->
    (_unify fuel self src srcEnv dest destEnv st).2 !! l = st !! l.
Proof.
  intros Hd. exact (proj1 (_unify_modifies fuel self src srcEnv dest destEnv st Hd)).
Qed.

(** X2: a unification never removes a name from [destEnv]: every key
    bound before the call is bound after it, whatever the outcome. *)
Theorem _unify_keeps_destEnv_keys
    (fuel : nat) (self : PrologRuntime) (src dest : Term) (srcEnv destEnv : loc)
    (st : Store) (name : string) :
  destEnv < List.length st ->
  is_Some (read st destEnv !! name) ->
  is_Some (read (_unify fuel self src srcEnv dest destEnv st).2 destEnv !! name).
Proof.
  revert src srcEnv dest destEnv st.
  induction fuel as [| fuel IH]; intros src srcEnv dest destEnv st Hd Hk; [exact Hk |].
  assert (Hwrite : forall dname v,
    is_Some (read (write destEnv (<[dname := v]> (read st destEnv)) st) destEnv !! name)).
  { intros dname v. rewrite read_write_eq by exact Hd.
    destruct (decide (dname = name)) as [-> | Hne].
    - rewrite lookup_insert_eq. eauto.
    - rewrite lookup_insert_ne by exact Hne. exact Hk. }
  assert (Hpred : forall (sname : string) (sargs : list Term) (dname : string)
                         (dargs : list Term),
    let r := (if decide (sname <> dname) then (Ok false, st)
      else if decide (List.length sargs <> List.length dargs) then (Ok false, st)
      else
        let '(dde, st1) := alloc (read st destEnv) st in
        match unify_args (fun s d => _unify fuel self s srcEnv d dde) sargs dargs st1 with
        | (Ok true, st2) => (Ok true, write destEnv (read st2 dde ∪ read st2 destEnv) st2)
        | (r, st2) => (r, st2)
        end) : Res bool * Store in
    is_Some (read r.2 destEnv !! name)).
  { intros sname sargs dname dargs.
    destruct (decide (sname <> dname)); [exact Hk |].
    destruct (decide (List.length sargs <> List.length dargs)); [exact Hk |].
    cbn [alloc]. cbv zeta.
    destruct (unify_args_scratch fuel self srcEnv sargs dargs (read st destEnv) st) as [L F].
    destruct (unify_args _ sargs dargs (st ++ [read st destEnv])) as [r st2].
    cbn [snd] in L, F.
    assert (Hsame : read st2 destEnv = read st destEnv).
    { unfold read. rewrite F by exact Hd. reflexivity. }
    destruct r as [[|] | e |]; cbn [snd]; try (rewrite Hsame; exact Hk).
    rewrite read_write_eq by lia. rewrite Hsame.
    apply lookup_union_is_Some. right. exact Hk. }
  cbn [_unify].
  destruct src as [sn | sf | ss | sl | sname sargs].
  { destruct (prolog_eval fuel self (Var sn) (read st srcEnv)) as [[v |] | e |]; auto. }
  all: destruct dest as [dn | df | ds | dl | dname dargs]; cbn [is_Literal];
    try apply Hpred; try exact Hk;
    repeat match goal with
    | |- context [match prolog_eval ?f ?s ?t ?e with _ => _ end] =>
        destruct (prolog_eval f s t e) as [[?|] | ? |]
    end; cbn [snd]; auto.
Qed.

(** On variable-free inert terms the argument loop decides [==] on the
    argument lists and gives back every object as it was. *)
Lemma unify_args_ground_frame fuel self srcEnv dde sargs :
  Forall (fun s => forall b, inert self b = true -> ground b = true ->
            forall st, dde < List.length st -> tsize s + tsize b <= fuel ->
            exists st', _unify fuel self s srcEnv b dde st = (Ok (term_eqb s b), st') /\
                        List.length st <= List.length st' /\
                        forall l, l < List.length st -> st' !! l = st !! l) sargs ->
  forall dargs st,
    dde < List.length st ->
    forallb (inert self) dargs = true -> forallb ground dargs = true ->
    list_sum (map tsize sargs) + list_sum (map tsize dargs) <= fuel ->
    List.length sargs = List.length dargs ->
    exists st', unify_args (fun s d => _unify fuel self s srcEnv d dde) sargs dargs st
                = (Ok (terms_eqb sargs dargs), st') /\
                List.length st <= List.length st' /\
                forall l, l < List.length st -> st' !! l = st !! l.
Proof.
  induction 1 as [| s sargs Hs _ IH]; intros [| d dargs] st Hdde Hi Hg Hsize Hlen;
    try discriminate; [cbn; eauto |].
  cbn [forallb] in Hi, Hg.
  apply andb_true_iff in Hi as [Hid Hi]. apply andb_true_iff in Hg as [Hgd Hg].
  unfold list_sum in Hsize. cbn [map fold_right] in Hsize.
  fold (list_sum (map tsize sargs)) in Hsize. fold (list_sum (map tsize dargs)) in Hsize.
  destruct (Hs d Hid Hgd st Hdde) as (st1 & Hrun & L1 & F1); [lia |].
  cbn [unify_args terms_eqb]. rewrite Hrun.
  destruct (term_eqb s d); [| eauto].
  destruct (IH dargs st1) as (st2 & Hrest & L2 & F2);
    [lia | assumption | assumption | lia | cbn in Hlen; lia |].
  exists st2. split; [exact Hrest |]. split; [lia |].
  intros l Hl. rewrite F2 by lia. apply F1, Hl.
Qed.

Lemma _unify_ground_frame (self : PrologRuntime) (a b : Term) :
  inert self a = true -> ground a = true ->
  inert self b = true -> ground b = true ->
  forall (fuel : nat) (srcEnv destEnv : loc) (st : Store),
    tsize a + tsize b <= fuel -> destEnv < List.length st ->
    exists st', _unify fuel self a srcEnv b destEnv st = (Ok (term_eqb a b), st') /\
                List.length st <= List.length st' /\
                forall l, l < List.length st -> st' !! l = st !! l.
Proof.
  assert (Hpos : forall t, 1 <= tsize t) by (intros []; cbn; lia).
  revert b.
  induction a as [n | f | s | l _ | sname sargs IH] using Term_args_ind;
    intros b Hia Hga Hib Hgb fuel srcEnv destEnv st Hfuel Hd; try discriminate;
    (destruct fuel as [| fuel]; [pose proof (Hpos b); cbn in Hfuel; lia |]).
  1-3: destruct b as [n' | f' | s' | l' | dname dargs]; try discriminate;
    cbn [_unify is_Literal]; rewrite_eval_ground; eauto.
  destruct b as [n' | f' | s' | l' | dname dargs]; try discriminate;
    cbn [_unify is_Literal]; eauto.
  rewrite term_eqb_Predicate.
  destruct (decide (sname <> dname)) as [Hne | Heq].
  { rewrite bool_decide_eq_false_2 by exact Hne. eauto. }
  rewrite bool_decide_eq_true_2 by (destruct (decide (sname = dname)); [assumption | contradiction]).
  cbn [andb].
  destruct (decide (List.length sargs <> List.length dargs)) as [Hlen | Hlen].
  { rewrite terms_eqb_length by exact Hlen. eauto. }
  cbn [alloc]. cbv zeta.
  cbn [inert ground] in Hia, Hga, Hib, Hgb.
  apply andb_true_iff in Hia as [_ Hia]. apply andb_true_iff in Hib as [_ Hib].
  cbn [tsize] in Hfuel.
  destruct (unify_args_ground_frame fuel self srcEnv (List.length st) sargs) with
    (dargs := dargs) (st := st ++ [read st destEnv]) as (st2 & Hloop & L2 & F2);
    [| rewrite length_app; cbn; lia | assumption | assumption | lia | lia |].
  - rewrite Forall_forall in IH. apply Forall_forall. intros s0 Hs0 b0 Hib0 Hgb0 st0 Hlt Hsz.
    rewrite forallb_forall in Hia, Hga.
    apply IH; [exact Hs0 | apply Hia, list_elem_of_In, Hs0 | apply Hga, list_elem_of_In, Hs0
              | assumption | assumption | exact Hsz | exact Hlt].
  - rewrite Hloop. rewrite length_app in L2. cbn in L2.
    assert (Hold : forall l, l < List.length st -> st2 !! l = st !! l).
    { intros l Hl. rewrite F2 by (rewrite length_app; cbn; lia). apply lookup_app_l, Hl. }
    destruct (terms_eqb sargs dargs).
    + eexists. split; [reflexivity |].
      unfold write. rewrite length_insert. split; [lia |].
      intros l Hl. destruct (decide (l = destEnv)) as [-> | Hne].
      * rewrite list_lookup_insert_eq by lia.
        assert (Hdde : read st2 (List.length st) = read st destEnv).
        { unfold read at 1. rewrite F2 by (rewrite length_app; cbn; lia).
          rewrite lookup_app_r by lia. rewrite Nat.sub_diag. reflexivity. }
        assert (Hdest : read st2 destEnv = read st destEnv).
        { unfold read. rewrite Hold by exact Hd. reflexivity. }
        rewrite Hdde, Hdest, (idemp_L (∪) (read st destEnv)).
        unfold read. destruct (st !! destEnv) as [e |] eqn:E; [reflexivity |].
        apply lookup_ge_None in E. lia.
      * rewrite list_lookup_insert_ne by congruence. apply Hold, Hl.
    + exists st2. split; [reflexivity |]. split; [lia | exact Hold].
Qed.

(** X3: on terms without variables and without operator or built-in
    function applications, unification decides [==]: it returns the
    structural equality of the two terms, and every object of the
    store, [destEnv] included, is afterwards as it was. *)
Theorem _unify_decides_equality_of_ground_terms (self : PrologRuntime) (a b : Term) :
  inert self a = true -> ground a = true ->
  inert self b = true -> ground b = true ->
  forall (fuel : nat) (srcEnv destEnv : loc) (st : Store),
    tsize a + tsize b <= fuel -> destEnv < List.length st ->
    exists st', _unify fuel self a srcEnv b destEnv st = (Ok (term_eqb a b), st') /\
                List.length st <= List.length st' /\
                forall l, l < List.length st -> st' !! l = st !! l.
Proof. apply _unify_ground_frame. Qed.

(** ** More on the evaluator *)

Lemma eval_args_inv (ev : Term -> Res (option Term)) todo :
  forall acc l, eval_args ev todo acc = Ok (Some l) ->
    exists vs, l = acc ++ vs /\ Forall2 (fun t v => ev t = Ok (Some v)) todo vs.
Proof.
  induction todo as [| t todo IH]; intros acc l Hrun; cbn [eval_args] in Hrun.
  - injection Hrun as <-. exists []. rewrite app_nil_r. split; [reflexivity | constructor].
  - destruct (ev t) as [[v |] | e |] eqn:Ht; try discriminate.
    apply IH in Hrun as (vs & -> & Hvs).
    exists (v :: vs). rewrite <- app_assoc. split; [reflexivity |].
    constructor; assumption.
Qed.

Lemma unary_operators_NumberLiteral name op x :
  unary_operators name = Some op -> is_Literal (op x) = true.
Proof.
  unfold unary_operators.
  destruct (decide (name = "+")); [intros [= <-]; reflexivity |].
  destruct (decide (name = "-")); [intros [= <-]; reflexivity | discriminate].
Qed.

Lemma binary_operators_NumberLiteral name op x y v :
  binary_operators name = Some op -> op x y = Ok v -> is_Literal v = true.
Proof.
  unfold binary_operators.
  repeat (destruct (decide _); [intros [= <-]; cbv beta delta
    [prolog_binary_add prolog_binary_sub prolog_binary_mul prolog_binary_div prolog_binary_mod];
    intros Hv; repeat case_match; try discriminate; injection Hv as <-; reflexivity |]).
  discriminate.
Qed.

Lemma binary_None_unary_None name :
  binary_operators name = None -> unary_operators name = None.
Proof.
  unfold binary_operators, unary_operators.
  destruct (decide (name = "+")); [discriminate |].
  destruct (decide (name = "-")); [discriminate | reflexivity].
Qed.

(** X5: a value the evaluator returns is a fixed point of the
    evaluator: evaluated again, in any environment and with at least
    the same fuel, it comes back unchanged.  (Built-in functions are
    taken to return literals.) *)
Theorem prolog_eval_result_is_fixed_point (self : PrologRuntime) :
  functions_return_literals self ->
  forall (fuel : nat) (t : Term) (env : Env) (v : Term),
    prolog_eval fuel self t env = Ok (Some v) ->
    forall (m : nat) (env' : Env), fuel <= m -> prolog_eval m self v env' = Ok (Some v).
Proof.
  intros Hlit.
  assert (Hliteral : forall v m env', is_Literal v = true -> 1 <= m ->
            prolog_eval m self v env' = Ok (Some v)).
  { intros v [| m] env' Hv Hm; [lia | apply prolog_eval_literal, Hv]. }
  induction fuel as [| fuel IH]; intros t env v Hrun m env' Hm; [discriminate |].
  cbn [prolog_eval] in Hrun.
  destruct t as [n | f | s | l | name targs].
  - destruct (env_get env n) as [ans |]; [| discriminate].
    eapply IH; [exact Hrun | lia].
  - injection Hrun as <-. apply Hliteral; [reflexivity | lia].
  - injection Hrun as <-. apply Hliteral; [reflexivity | lia].
  - injection Hrun as <-. apply Hliteral; [reflexivity | lia].
  - destruct (if decide (List.length targs = 1) then unary_operators name else None)
      as [op |] eqn:Hu.
    { destruct (decide (List.length targs = 1)); [| discriminate].
      destruct (py_index targs 0) as [a0 | |]; try discriminate. cbn [res_bind] in Hrun.
      destruct (prolog_eval fuel self a0 env) as [[[| x | | |] |] | |]; try discriminate.
      cbn [res_bind] in Hrun. injection Hrun as <-.
      apply Hliteral; [eapply unary_operators_NumberLiteral; eassumption | lia]. }
    destruct (binary_operators name) as [op |] eqn:Hb.
    { destruct (decide (List.length targs <> 2)); [discriminate |].
      destruct (py_index targs 0) as [a0 | |]; try discriminate. cbn [res_bind] in Hrun.
      destruct (prolog_eval fuel self a0 env) as [[[| x | | |] |] | |]; try discriminate.
      cbn [res_bind] in Hrun.
      destruct (py_index targs 1) as [a1 | |]; try discriminate. cbn [res_bind] in Hrun.
      destruct (prolog_eval fuel self a1 env) as [[[| y | | |] |] | |]; try discriminate.
      cbn [res_bind] in Hrun.
      destruct (op x y) as [w | |] eqn:Hop; try discriminate.
      cbn [res_bind] in Hrun. injection Hrun as <-.
      apply Hliteral; [eapply binary_operators_NumberLiteral; eassumption | lia]. }
    destruct (builtin_functions self !! name) as [fn |] eqn:Hf.
    { apply Hliteral; [eapply Hlit; eassumption | lia]. }
    destruct (eval_args (fun arg => prolog_eval fuel self arg env) targs [])
      as [[args |] | |] eqn:Hargs; try discriminate.
    cbn [res_bind] in Hrun. injection Hrun as <-.
    apply eval_args_inv in Hargs as (vs & -> & Hvs). cbn [app].
    destruct m as [| m]; [lia |].
    rewrite prolog_eval_inert_Predicate.
    + rewrite eval_args_same; [reflexivity |].
      apply Forall_forall. intros a Ha.
      apply list_elem_of_lookup in Ha as [i Hi].
      destruct (Forall2_lookup_r _ _ _ _ _ Hvs Hi) as (ti & _ & Hti).
      eapply IH; [exact Hti | lia].
    + unfold evaluable. rewrite (binary_None_unary_None name Hb), Hb.
      match goal with
      | |- match ?x with _ => _ end = _ =>
          replace x with (@None BuiltinFunction) by (symmetry; exact Hf)
      end.
      reflexivity.
Qed.

(** X6: no cycle is detected.  When a variable is bound to itself the
    evaluator returns no value, however much fuel it is given, and
    neither does a unification whose source is that variable. *)
Theorem self_binding_never_evaluates
    (self : PrologRuntime) (name : string) (env : Env) :
  env_get env name = Some (Var name) ->
  (forall fuel : nat, prolog_eval fuel self (Var name) env = Timeout) /\
  (forall (fuel : nat) (dest : Term) (srcEnv destEnv : loc) (st : Store),
     read st srcEnv = env ->
     _unify fuel self (Var name) srcEnv dest destEnv st = (Timeout, st)).
Proof.
  intros Hself.
  assert (Heval : forall fuel, prolog_eval fuel self (Var name) env = Timeout).
  { induction fuel as [| fuel IH]; [reflexivity |].
    cbn [prolog_eval]. rewrite Hself. exact IH. }
  split; [exact Heval |].
  intros [| fuel] dest srcEnv destEnv st Hread; [reflexivity |].
  cbn [_unify]. rewrite Hread, Heval. reflexivity.
Qed.

(** X7: a binary operator gives up on its first operand: when that one
    does not evaluate to a number the result is [None] and the second
    operand is not evaluated, so that whatever it would raise is not
    raised. *)
Theorem binary_operator_stops_at_first_operand
    (fuel : nat) (self : PrologRuntime) (name : string) (a0 a1 : Term) (env : Env)
    (v : option Term) :
  is_Some (binary_operators name) ->
  prolog_eval fuel self a0 env = Ok v ->
  (forall x, v <> Some (NumberLiteral x)) ->
  prolog_eval (S fuel) self (Predicate name [a0; a1]) env = Ok None.
Proof.
  intros [op Hop] Ha0 Hv. cbn [prolog_eval].
  destruct (decide (List.length [a0; a1] = 1)) as [Hlen | _]; [discriminate Hlen |].
  rewrite Hop.
  destruct (decide (List.length [a0; a1] <> 2)) as [Hlen | _]; [cbn in Hlen; lia |].
  cbn [py_index lookup list_lookup res_bind]. rewrite Ha0. cbn [res_bind].
  destruct v as [[| x | | |] |]; try reflexivity.
  exfalso. eapply Hv. reflexivity.
Qed.

(** ** More on the search *)

(** X8: a subgoal whose name is neither special nor a built-in
    predicate and has no clause in the database raises
    [PrologRuntimeError]; the turn changes nothing before it raises,
    and a query that starts with such a subgoal raises whatever else
    the database holds. *)
Theorem undefined_predicate_raises :
  (forall (fuel : nat) (self : PrologRuntime) (g : PrologGoal) (queue : list PrologGoal)
          (solutions : list loc) (st : Store) (pred : Term) (name : string),
      g_terms g !! g_inx g = Some pred ->
      get_name pred = Ok name ->
      name ∉ ["is"; "cut"; "fail"] ->
      builtins self !! name = None ->
      persisted (db self) name = [] ->
      step fuel self g queue solutions st
      = (Raise (PrologRuntimeError "Failed to find predicate"), st)) /\
  (forall (fuel : nat) (self : PrologRuntime) (hd : string) (hargs : list Term)
          (name : string) (args : list Term) (env : loc) (st : Store),
      name ∉ ["is"; "cut"; "fail"; "and"] ->
      builtins self !! name = None ->
      persisted (db self) name = [] ->
      search (S (S fuel)) self (mkClause hd hargs (Some (Predicate name args))) env st
      = (Raise (PrologRuntimeError "Failed to find predicate"), st ++ [read st env])).
Proof.
  assert (Hstep : forall (fuel : nat) (self : PrologRuntime) (g : PrologGoal)
            (queue : list PrologGoal) (solutions : list loc) (st : Store) (pred : Term)
            (name : string),
      g_terms g !! g_inx g = Some pred ->
      get_name pred = Ok name ->
      name ∉ ["is"; "cut"; "fail"] ->
      builtins self !! name = None ->
      persisted (db self) name = [] ->
      step fuel self g queue solutions st
      = (Raise (PrologRuntimeError "Failed to find predicate"), st)).
  { intros fuel self g queue solutions st pred name Hpred Hname Hspecial Hb Hnone.
    unfold step.
    destruct (decide (List.length (g_terms g) <= g_inx g)) as [Hfin | _].
    { apply lookup_lt_Some in Hpred. lia. }
    unfold m_bind at 1. unfold py_index. rewrite Hpred. cbn [m_lift].
    unfold m_bind at 1. rewrite Hname. cbn [m_lift].
    destruct (decide (name ∈ ["is"; "cut"; "fail"])); [contradiction |].
    match goal with
    | |- match ?x with _ => _ end _ = _ =>
        replace x with (@None BuiltinPredicate) by (symmetry; exact Hb)
    end.
    unfold m_bind at 1. unfold LogicDB_lookup. cbn [fst m_lift].
    unfold persisted in Hnone. rewrite Hnone. reflexivity. }
  split; [exact Hstep |].
  intros fuel self hd hargs name args env st Hspecial Hb Hnone.
  unfold search. cbn [body].
  destruct (decide (name = "and")) as [-> | _].
  { exfalso. apply Hspecial. rewrite !elem_of_cons. tauto. }
  unfold PrologGoal_init, alloc. cbn [search_loop pop].
  erewrite Hstep; [reflexivity | reflexivity | reflexivity | | exact Hb | exact Hnone].
  intros Hin. apply Hspecial. rewrite !elem_of_cons in *. tauto.
Qed.

Lemma pop_owned N b (queue queue' : list PrologGoal) g :
  queue_owned N b queue -> pop queue = Some (g, queue') ->
  goal_owned N b g /\ queue_owned N b queue'.
Proof.
  revert g queue'. induction queue as [| x queue IH]; intros g queue' Hq Hpop;
    [discriminate |].
  cbn in Hpop. apply Forall_cons in Hq as [Hx Hq].
  destruct (pop queue) as [[y r] |].
  - injection Hpop as <- <-. destruct (IH y r Hq eq_refl).
    split; [assumption | constructor; assumption].
  - injection Hpop as <- <-. split; [assumption | constructor].
Qed.

Lemma search_loop_solutions_owned N fuel self :
  forall queue solutions st out st',
    N <= List.length st -> queue_owned N (List.length st) queue ->
    Forall (fun l => N <= l < List.length st) solutions ->
    search_loop fuel self queue solutions st = (Ok out, st') ->
    Forall (fun l => N <= l < List.length st') out.
Proof.
  induction fuel as [| fuel IH]; intros queue solutions st out st' HN Hq Hs Hrun;
    [discriminate |].
  cbn [search_loop] in Hrun.
  destruct (pop queue) as [[g queue'] |] eqn:Hpop.
  - destruct (pop_owned _ _ _ _ _ Hq Hpop) as [Hg Hq'].
    destruct (triple_step N (List.length st) fuel self g queue' solutions Hg Hq' st HN (le_n _))
      as [[Hlen _] Hpost].
    destruct (step fuel self g queue' solutions st) as [[[queue2 solutions2] | e |] st2] eqn:Hstep;
      try discriminate.
    cbn [fst snd] in *.
    apply step_shape in Hstep as [_ Hsol].
    eapply IH; [| exact (Hpost _ eq_refl) | | exact Hrun]; [lia |].
    assert (Hs2 : Forall (fun l => N <= l < List.length st2) solutions).
    { eapply Forall_impl; [exact Hs |]. cbn. intros l Hl. lia. }
    destruct Hsol as [-> | (_ & _ & -> & _)]; [exact Hs2 |].
    apply Forall_app. split; [exact Hs2 |]. constructor; [| constructor].
    destruct (goal_owned_env _ _ _ Hg). lia.
  - injection Hrun as <- <-. exact Hs.
Qed.

(** X9: every environment [search] returns is an object the search
    created: it lives in the final store and is none of the objects
    that existed at the call, the caller's [env] in particular. *)
Theorem search_returns_objects_of_its_own
    (fuel : nat) (self : PrologRuntime) (clause : Clause) (env : loc) (st st' : Store)
    (out : list loc) :
  search fuel self clause env st = (Ok out, st') ->
  Forall (fun l => List.length st <= l < List.length st') out.
Proof.
  unfold search. destruct (body clause) as [b |].
  - destruct b as [n | f | s | l | bname bargs]; try discriminate.
    unfold PrologGoal_init, alloc. intros Hrun.
    eapply search_loop_solutions_owned in Hrun; [exact Hrun | | | constructor].
    + rewrite length_app. lia.
    + constructor; [| constructor]. cbn. rewrite length_app. cbn. lia.
  - cbn. intros [= <- <-]. constructor; [| constructor].
    rewrite length_app. cbn. lia.
Qed.

(** X10: the empty conjunction succeeds once.  A query whose body is
    [and()] has exactly one solution, a new object that holds what the
    caller's environment holds. *)
Theorem empty_conjunction_has_one_solution
    (fuel : nat) (self : PrologRuntime) (hd : string) (hargs : list Term)
    (env : loc) (st : Store) :
  search (S (S fuel)) self (mkClause hd hargs (Some (Predicate "and" []))) env st
  = (Ok [List.length st], st ++ [read st env]).
Proof. reflexivity. Qed.

(** ** More on the database and its overlay *)

Lemma do_filter_asserted ov n res :
  LogicDBOverlay_do_filter ov n res =
  match d_retracted ov !! n with
  | Some _ => Raise PdbTrap
  | None => Ok (res ++ asserted ov n)
  end.
Proof.
  unfold LogicDBOverlay_do_filter, asserted.
  destruct (d_retracted ov !! n); [reflexivity |].
  destruct (d_assertz ov !! n); cbn [default]; [reflexivity | rewrite app_nil_r; reflexivity].
Qed.

(** X12: [assertz] adds its clause at the end of what a lookup of the
    clause's head name returns and changes the lookup of no other
    name; a lookup that stopped in the debugger still does. *)
Theorem lookup_after_assertz (d : LogicDB) (ov : LogicDBOverlay) (c : Clause) (n : string) :
  LogicDB_lookup d n (Some (LogicDBOverlay_assertz ov c)) =
  match LogicDB_lookup d n (Some ov) with
  | (Ok found, d') => (Ok (found ++ (if decide (head_name c = n) then [c] else [])), d')
  | other => other
  end.
Proof.
  unfold LogicDB_lookup. rewrite !do_filter_asserted, retracted_assertz, asserted_assertz.
  destruct (d_retracted ov !! n); [reflexivity |].
  rewrite app_assoc. reflexivity.
Qed.

Lemma well_keyed_init : well_keyed LogicDBOverlay_init.
Proof.
  intros name cs c Hcs. cbn [LogicDBOverlay_init d_assertz] in Hcs.
  rewrite lookup_empty in Hcs. discriminate.
Qed.

Lemma well_keyed_assertz ov c : well_keyed ov -> well_keyed (LogicDBOverlay_assertz ov c).
Proof.
  intros Hwk name cs c' Hcs Hin. unfold LogicDBOverlay_assertz in Hcs.
  destruct (d_assertz ov !! head_name c) as [old |] eqn:Hold; cbn [d_assertz] in Hcs.
  - destruct (decide (head_name c = name)) as [<- | Hne].
    + rewrite lookup_insert_eq in Hcs. injection Hcs as <-.
      apply elem_of_app in Hin as [Hin | Hin]; [eapply Hwk; eassumption |].
      apply list_elem_of_singleton in Hin as ->. reflexivity.
    + rewrite lookup_insert_ne in Hcs by exact Hne. eapply Hwk; eassumption.
  - destruct (decide (head_name c = name)) as [<- | Hne].
    + rewrite lookup_insert_eq in Hcs. injection Hcs as <-.
      apply list_elem_of_singleton in Hin as ->. reflexivity.
    + rewrite lookup_insert_ne in Hcs by exact Hne. eapply Hwk; eassumption.
Qed.

Lemma nonempty_assertz ov c :
  (forall name cs, d_assertz ov !! name = Some cs -> cs <> []) ->
  forall name cs, d_assertz (LogicDBOverlay_assertz ov c) !! name = Some cs -> cs <> [].
Proof.
  intros Hne name cs Hcs. unfold LogicDBOverlay_assertz in Hcs.
  destruct (d_assertz ov !! head_name c) as [old |] eqn:Hold; cbn [d_assertz] in Hcs;
    (destruct (decide (head_name c = name)) as [<- | Hn];
     [rewrite lookup_insert_eq in Hcs; injection Hcs as <-
     | rewrite lookup_insert_ne in Hcs by exact Hn; eapply Hne; eassumption]).
  - destruct old; discriminate.
  - discriminate.
Qed.

(** X13: what [assertz] keeps.  In an overlay built from
    [LogicDBOverlay()] by [assertz] alone every clause is filed under
    its own head name, no name has an empty list, and nothing is
    retracted, so that no lookup through it stops in the debugger. *)
Theorem assertz_keeps_overlay_well_formed (cs : list Clause) :
  let ov := foldl LogicDBOverlay_assertz LogicDBOverlay_init cs in
  well_keyed ov /\
  (forall name l, d_assertz ov !! name = Some l -> l <> []) /\
  d_retracted ov = ∅ /\
  (forall (d : LogicDB) (n : string),
     LogicDB_lookup d n (Some ov) = (Ok (persisted d n ++ named n cs), d)).
Proof.
  intros ov.
  assert (Hinv : forall cs0 ov0,
    well_keyed ov0 -> (forall name l, d_assertz ov0 !! name = Some l -> l <> []) ->
    well_keyed (foldl LogicDBOverlay_assertz ov0 cs0) /\
    (forall name l, d_assertz (foldl LogicDBOverlay_assertz ov0 cs0) !! name = Some l -> l <> [])).
  { induction cs0 as [| c cs0 IH]; intros ov0 Hwk Hne; cbn [foldl]; [auto |].
    apply IH; [apply well_keyed_assertz, Hwk | apply nonempty_assertz, Hne]. }
  destruct (Hinv cs LogicDBOverlay_init well_keyed_init) as [Hwk Hne].
  { intros name l Hl. cbn [LogicDBOverlay_init d_assertz] in Hl.
    rewrite lookup_empty in Hl. discriminate. }
  split; [exact Hwk |]. split; [exact Hne |].
  assert (Hret : d_retracted ov = ∅) by apply retracted_assertz_all.
  split; [exact Hret |].
  intros d n. unfold LogicDB_lookup. rewrite do_filter_asserted, Hret, lookup_empty.
  unfold ov. rewrite asserted_assertz_all. reflexivity.
Qed.

Lemma named_all n (cs : list Clause) :
  (forall c, c ∈ cs -> head_name c = n) -> named n cs = cs.
Proof.
  induction cs as [| c cs IH]; intros Hall; [reflexivity |].
  rewrite named_cons. destruct (decide (head_name c = n)) as [_ | Hne].
  - cbn. f_equal. apply IH. intros c' Hc'. apply Hall. right. exact Hc'.
  - exfalso. apply Hne, Hall. left.
Qed.

Lemma named_none n (cs : list Clause) :
  (forall c, c ∈ cs -> head_name c <> n) -> named n cs = [].
Proof.
  induction cs as [| c cs IH]; intros Hall; [reflexivity |].
  rewrite named_cons. destruct (decide (head_name c = n)) as [He | _].
  - exfalso. exact (Hall c (list_elem_of_here _ _) He).
  - cbn. apply IH. intros c' Hc'. apply Hall. right. exact Hc'.
Qed.

(** In whatever order a well-keyed dict is gone through, the clauses
    met for a head name are the list filed under that name. *)
Lemma entries_for_keyed (m : gmap string (list Clause)) (items : list (string * list Clause))
    (n : string) :
  items ≡ₚ map_to_list m ->
  (forall name cs c, m !! name = Some cs -> c ∈ cs -> head_name c = name) ->
  entries_for n items = default [] (m !! n).
Proof.
  intros Hperm Hkeyed.
  assert (Hnodup : NoDup items.*1).
  { rewrite Hperm. apply NoDup_fst_map_to_list. }
  assert (Hin : forall k cs, (k, cs) ∈ items <-> m !! k = Some cs).
  { intros k cs. rewrite Hperm. apply elem_of_map_to_list. }
  clear Hperm.
  assert (Hgen : forall its, NoDup its.*1 ->
    (forall k cs c, (k, cs) ∈ its -> c ∈ cs -> head_name c = k) ->
    (forall cs, (n, cs) ∈ its -> entries_for n its = cs) /\
    (n ∉ its.*1 -> entries_for n its = [])).
  { induction its as [| [k cs] its IH]; intros Hnd Hk.
    - split; [intros cs Hcs; inversion Hcs | reflexivity].
    - cbn [fmap list_fmap fst] in Hnd. apply NoDup_cons in Hnd as [Hfresh Hnd].
      destruct (IH Hnd) as [IHin IHout].
      { intros k' cs' c Hin' Hc. eapply Hk; [right; exact Hin' | exact Hc]. }
      unfold entries_for in *. cbn [fmap list_fmap concat snd].
      split.
      + intros cs0 Hcs0. apply elem_of_cons in Hcs0 as [[= <- <-] | Hcs0].
        * rewrite named_all by (intros c Hc; eapply Hk; [left | exact Hc]).
          rewrite IHout by exact Hfresh. apply app_nil_r.
        * assert (Hkn : k <> n).
          { intros ->. apply Hfresh. apply list_elem_of_fmap. exists (n, cs0). auto. }
          rewrite named_none.
          -- apply IHin, Hcs0.
          -- intros c Hc He. apply Hkn. rewrite <- He. symmetry.
             eapply Hk; [left | exact Hc].
      + intros Hout. cbn [fmap list_fmap fst] in Hout.
        apply not_elem_of_cons in Hout as [Hkn Hout].
        rewrite named_none.
        * apply IHout, Hout.
        * intros c Hc He. apply Hkn. rewrite <- He.
          eapply Hk; [left | exact Hc]. }
  destruct (Hgen items Hnodup) as [Hfound Hmissing].
  { intros k cs c Hkc Hc. eapply Hkeyed; [apply Hin, Hkc | exact Hc]. }
  destruct (m !! n) as [cs |] eqn:Hn; cbn [default].
  - apply Hfound, Hin, Hn.
  - apply Hmissing. intros Hmem. apply list_elem_of_fmap in Hmem as ([k cs] & Hk & Hmem).
    cbn in Hk. subst k. apply Hin in Hmem. congruence.
Qed.

Lemma asserted_assertz_items items : forall ov n,
  asserted (foldl assertz_item ov items) n
  = asserted ov n ++ entries_for n items.
Proof.
  induction items as [| [k cs] items IH]; intros ov n; cbn [foldl].
  - unfold entries_for. cbn. rewrite app_nil_r. reflexivity.
  - rewrite IH. unfold assertz_item. cbn [snd]. rewrite asserted_assertz_all. unfold entries_for. cbn [fmap list_fmap concat snd].
    rewrite app_assoc. reflexivity.
Qed.

Lemma retracted_assertz_items items : forall ov,
  d_retracted (foldl assertz_item ov items)
  = d_retracted ov.
Proof.
  induction items as [| [k cs] items IH]; intros ov; cbn [foldl]; [reflexivity |].
  rewrite IH. apply retracted_assertz_all.
Qed.

(** X14: a clone is an equal overlay.  For a well-keyed overlay with
    nothing retracted, and in whatever order the dict yields its names,
    [clone] returns an overlay that holds under every name the list the
    original holds, with nothing retracted (and is itself well keyed). *)
Theorem clone_holds_the_same_clauses
    (ov : LogicDBOverlay) (items : list (string * list Clause)) :
  well_keyed ov ->
  d_retracted ov = ∅ ->
  items ≡ₚ map_to_list (d_assertz ov) ->
  exists clone,
    LogicDBOverlay_clone_in items (map_to_list (d_retracted ov)) = Ok clone /\
    (forall n, asserted clone n = asserted ov n) /\
    d_retracted clone = ∅ /\
    (forall (d : LogicDB) (n : string),
       LogicDB_lookup d n (Some clone) = LogicDB_lookup d n (Some ov)).
Proof.
  intros Hwk Hret Hperm. unfold LogicDBOverlay_clone_in.
  rewrite Hret, map_to_list_empty. cbn [forallb].
  eexists. split; [reflexivity |].
  assert (Has : forall n,
    asserted (foldl assertz_item LogicDBOverlay_init items) n = asserted ov n).
  { intros n. rewrite asserted_assertz_items.
    rewrite (entries_for_keyed (d_assertz ov) items n Hperm Hwk).
    unfold asserted. cbn [LogicDBOverlay_init d_assertz]. rewrite lookup_empty. reflexivity. }
  assert (Hr : d_retracted (foldl assertz_item LogicDBOverlay_init items) = ∅) by apply retracted_assertz_items.
  split; [exact Has |]. split; [exact Hr |].
  intros d n. unfold LogicDB_lookup. rewrite !do_filter_asserted, Hr, Hret, Has. reflexivity.
Qed.

Lemma persisted_store_module module cs : forall d n,
  persisted (foldl (fun d clause => LogicDB_store d module clause) d cs) n
  = persisted d n ++ named n cs.
Proof.
  induction cs as [| c cs IH]; intros d n; cbn [foldl].
  - unfold named. rewrite filter_nil, app_nil_r. reflexivity.
  - rewrite IH, persisted_store, named_cons, app_assoc. reflexivity.
Qed.

Lemma persisted_store_items module items : forall d n,
  persisted (LogicDB_store_overlayZ_in d module items) n = persisted d n ++ entries_for n items.
Proof.
  unfold LogicDB_store_overlayZ_in.
  induction items as [| [k cs] items IH]; intros d n; cbn [foldl].
  - unfold entries_for. cbn. rewrite app_nil_r. reflexivity.
  - rewrite IH. unfold store_item. cbn [snd]. rewrite persisted_store_module. unfold entries_for. cbn [fmap list_fmap concat snd].
    rewrite app_assoc. reflexivity.
Qed.

(** X15: committing an overlay.  After [store_overlayZ] has stored the
    clauses of a well-keyed overlay with nothing retracted, in whatever
    order the dict yields its names, a plain lookup returns what the
    lookup through the overlay returned before. *)
Theorem lookup_after_store_overlayZ
    (d : LogicDB) (module : string) (ov : LogicDBOverlay)
    (items : list (string * list Clause)) (n : string) :
  well_keyed ov ->
  d_retracted ov = ∅ ->
  items ≡ₚ map_to_list (d_assertz ov) ->
  (LogicDB_lookup (LogicDB_store_overlayZ_in d module items) n None).1
  = (LogicDB_lookup d n (Some ov)).1.
Proof.
  intros Hwk Hret Hperm. unfold LogicDB_lookup. cbn [fst].
  rewrite do_filter_asserted, Hret, lookup_empty.
  fold (persisted (LogicDB_store_overlayZ_in d module items) n). fold (persisted d n).
  rewrite persisted_store_items, (entries_for_keyed (d_assertz ov) items n Hperm Hwk).
  reflexivity.
Qed.

(** X16: reloading a module.  After [clear_module] and the storing of
    new clauses under the same module, a lookup returns the clauses of
    the other modules, in the order they were stored, followed by the
    new clauses of the name; the documentation rows of the other
    modules are all still there; and clearing a module again changes
    nothing. *)
Theorem lookup_after_module_reload
    (s : Session) (module : string) (new : list Clause) (n : string) :
  let s' := foldl (fun s c => Session_store s module c) (LogicDB_clear_module s module) new in
  (Session_lookup s' n None).1 =
    Ok ((orm_prolog <$> filter (fun ormc => orm_head ormc = n /\ orm_module ormc <> module)
                          (clause_rows s)) ++ named n new) /\
  doc_rows s' = filter (fun ormd => doc_module ormd <> module) (doc_rows s) /\
  LogicDB_clear_module (LogicDB_clear_module s module) module = LogicDB_clear_module s module.
Proof.
  intros s'.
  assert (Hrows : forall cs s0,
    clause_rows (foldl (fun s c => Session_store s module c) s0 cs)
    = foldl (fun d c => LogicDB_store d module c) (clause_rows s0) cs /\
    doc_rows (foldl (fun s c => Session_store s module c) s0 cs) = doc_rows s0).
  { induction cs as [| c cs IH]; intros s0; cbn [foldl]; [auto |].
    destruct (IH (Session_store s0 module c)) as [-> ->]. auto. }
  destruct (Hrows new (LogicDB_clear_module s module)) as [Hc Hd].
  split; [| split].
  - unfold Session_lookup, LogicDB_lookup. cbn [fst].
    fold (persisted (clause_rows s') n). unfold s'. rewrite Hc, persisted_store_module.
    unfold persisted, LogicDB_clear_module. cbn [clause_rows].
    rewrite list_filter_filter. reflexivity.
  - unfold s'. rewrite Hd. reflexivity.
  - unfold LogicDB_clear_module. cbn [clause_rows doc_rows].
    rewrite !list_filter_filter. f_equal; apply list_filter_iff; tauto.
Qed.

Lemma prolog_eval_bound fuel self n env t :
  env_get env n = Some t ->
  prolog_eval (S fuel) self (Var n) env = prolog_eval fuel self t env.
Proof. intros Hn. cbn [prolog_eval]. rewrite Hn. reflexivity. Qed.

(** X4: binding and reading back.  Unifying a variable-free inert term
    with an unbound destination variable succeeds, stores the term
    under the variable's name and changes nothing else; evaluating the
    variable in the new environment gives the term back. *)
Theorem _unify_binds_destination_variable
    (self : PrologRuntime) (a : Term) (x : string) (fuel : nat) (srcEnv destEnv : loc)
    (st : Store) :
  inert self a = true -> ground a = true ->
  env_get (read st destEnv) x = None ->
  tsize a + 2 <= fuel ->
  _unify fuel self a srcEnv (Var x) destEnv st
  = (Ok true, write destEnv (<[x := Some a]> (read st destEnv)) st) /\
  prolog_eval fuel self (Var x) (<[x := Some a]> (read st destEnv)) = Ok (Some a).
Proof.
  intros Hi Hg Hx Hfuel.
  destruct fuel as [| [| fuel]]; try lia.
  split.
  - destruct a as [n | f | s | l | name args]; try discriminate; cbn [_unify];
      rewrite prolog_eval_unbound by exact Hx;
      rewrite_eval_ground; reflexivity.
  - rewrite (prolog_eval_bound _ _ _ _ a)
      by (unfold env_get; rewrite lookup_insert_eq; reflexivity).
    apply prolog_eval_ground; [assumption | assumption | lia].
Qed.

(** ** Ground queries over facts *)

Section GroundQuery.

Variable self : PrologRuntime.
Variable name : string.
Variable args : list Term.
Variable hd : Term.
Variable bound : nat.

Hypothesis Hspecial : name ∉ ["is"; "cut"; "fail"].
Hypothesis Hbuiltin : builtins self !! name = None.
Hypothesis Hinert : inert self (Predicate name args) = true.
Hypothesis Hground : ground (Predicate name args) = true.

Lemma try_clauses_ground_facts fuel root facts :
  Forall (ground_fact self (Predicate name args) bound) facts ->
  bound <= fuel ->
  forall queue st, g_env root < List.length st ->
    exists kids st',
      try_clauses fuel self (Predicate name args) root facts queue st
      = (Ok (kids ++ queue), st') /\
      List.length st <= List.length st' /\
      (forall l, l < List.length st -> st' !! l = st !! l) /\
      Forall (fact_frame self (Predicate name args) bound root) kids /\
      List.length kids = List.length (matching (Predicate name args) facts).
Proof.
  intros Hfacts Hfuel.
  induction Hfacts as [| c facts (Hbody & Hci & Hcg & Hsize) _ IH]; intros queue st Hroot.
  { exists [], st. repeat split; auto. }
  cbn [try_clauses]. unfold m_bind at 1. cbn [m_lift get_args].
  unfold matching. rewrite filter_cons. fold (matching (Predicate name args) facts).
  destruct (decide (List.length (head_args c) <> List.length args)) as [Hlen | Hlen].
  - assert (Hneq : term_eqb (Predicate name args) (head c) = false).
    { unfold head. rewrite term_eqb_Predicate, terms_eqb_length by congruence.
      apply andb_false_r. }
    destruct (decide (term_eqb (Predicate name args) (head c) = true)); [congruence |].
    apply IH, Hroot.
  - unfold make_children. rewrite Hbody.
    unfold m_bind at 1. unfold m_bind at 1.
    unfold m_new_goal, PrologGoal_init, alloc. cbn [m_ret].
    unfold m_bind at 1. cbn [queue_children g_env].
    unfold m_bind at 1.
    destruct (_unify_ground_frame self (Predicate name args) (head c) Hinert Hground Hci Hcg
                fuel (g_env root) (List.length st) (st ++ [∅]))
      as (st2 & Hun & L2 & F2); [lia | rewrite length_app; cbn; lia |].
    rewrite Hun. cbn [m_ret].
    rewrite length_app in L2. cbn in L2.
    assert (Hold : forall l, l < List.length st -> st2 !! l = st !! l).
    { intros l Hl. rewrite F2 by (rewrite length_app; cbn; lia). apply lookup_app_l, Hl. }
    set (kid := mkGoal (head c) [] (Some root) (List.length st) 0).
    assert (Hkid : fact_frame self (Predicate name args) bound root kid).
    { unfold fact_frame, kid. cbn [g_terms g_parent g_head]. repeat split; auto. lia. }
    destruct (term_eqb (Predicate name args) (head c)) eqn:Heq.
    + destruct (IH (kid :: queue) st2) as (kids & st3 & Hrun & L3 & F3 & Hk & Hn); [lia |].
      exists (kids ++ [kid]), st3. rewrite <- app_assoc. cbn [app].
      split; [exact Hrun |]. split; [lia |].
      split; [intros l Hl; rewrite F3 by lia; apply Hold, Hl |].
      split; [apply Forall_app; split; [exact Hk | constructor; [exact Hkid | constructor]] |].
      destruct (decide (true = true)); [| congruence].
      rewrite length_app. cbn. lia.
    + destruct (IH queue st2) as (kids & st3 & Hrun & L3 & F3 & Hk & Hn); [lia |].
      exists kids, st3.
      split; [exact Hrun |]. split; [lia |].
      split; [intros l Hl; rewrite F3 by lia; apply Hold, Hl |].
      split; [exact Hk |].
      destruct (decide (false = true)); [congruence | exact Hn].
Qed.

(** The turn of a fact's frame: the root is copied, the copy advanced
    and put in front; the copy's environment holds what the root's
    holds. *)
Lemma step_fact_frame fuel e0 kid queue solutions st :
  fact_frame self (Predicate name args) bound (mkGoal hd [Predicate name args] None e0 0) kid ->
  bound <= fuel ->
  exists e' st',
    step fuel self kid queue solutions st
    = (Ok (mkGoal hd [Predicate name args] None e' 1 :: queue, solutions), st') /\
    List.length st <= List.length st' /\
    (forall l, l < List.length st -> st' !! l = st !! l) /\
    e' < List.length st' /\ read st' e' = read st e0.
Proof.
  intros (Hterms & Hparent & Hki & Hkg & Hsize) Hfuel.
  unfold step. rewrite Hterms, Hparent. cbn [List.length].
  destruct (decide (0 <= g_inx kid)) as [_ | Hn]; [| lia].
  unfold m_bind at 1. unfold m_deepcopy_goal. cbn [deepcopy_goal alloc].
  unfold m_bind at 1. cbn [g_terms g_inx py_index lookup list_lookup m_lift].
  unfold m_bind at 1. cbn [g_env].
  destruct (_unify_ground_frame self (g_head kid) (Predicate name args) Hki Hkg Hinert Hground
              fuel (g_env kid) (List.length st) (st ++ [read st e0]))
    as (st2 & Hun & L2 & F2); [lia | rewrite length_app; cbn; lia |].
  rewrite Hun. cbn [m_ret advance g_head g_terms g_parent g_env g_inx].
  rewrite length_app in L2. cbn in L2.
  exists (List.length st), st2.
  split; [reflexivity |]. split; [lia |].
  split.
  { intros l Hl. rewrite F2 by (rewrite length_app; cbn; lia). apply lookup_app_l, Hl. }
  split; [lia |].
  unfold read at 1. rewrite F2 by (rewrite length_app; cbn; lia).
  rewrite lookup_app_r by lia. rewrite Nat.sub_diag. reflexivity.
Qed.

(** Finished root frames give their environments as solutions, the
    oldest first. *)
Lemma search_loop_finished_roots es :
  forall fuel solutions st,
    List.length es < fuel ->
    search_loop fuel self ((fun e => mkGoal hd [Predicate name args] None e 1) <$> es)
      solutions st
    = (Ok (solutions ++ reverse es), st).
Proof.
  induction es as [| e es IH] using rev_ind; intros fuel solutions st Hfuel.
  - destruct fuel; [lia |]. cbn. rewrite app_nil_r. reflexivity.
  - destruct fuel as [| fuel]; [lia |].
    rewrite length_app in Hfuel. cbn in Hfuel.
    cbn [search_loop]. rewrite fmap_app. cbn [fmap list_fmap]. rewrite pop_snoc.
    unfold step. cbn [g_terms g_inx g_parent g_env List.length].
    destruct (decide (1 <= 1)) as [_ | Hn]; [| lia].
    cbn [m_ret]. rewrite IH by lia. rewrite reverse_app, <- app_assoc. reflexivity.
Qed.

Lemma search_loop_fact_frames e0 (content : Env) kids :
  forall es fuel solutions st,
    Forall (fact_frame self (Predicate name args) bound
              (mkGoal hd [Predicate name args] None e0 0)) kids ->
    e0 < List.length st -> read st e0 = content ->
    Forall (fun e => e < List.length st /\ read st e = content) es ->
    bound + 2 * List.length kids + List.length es + 2 <= fuel ->
    exists out st',
      search_loop fuel self
        (((fun e => mkGoal hd [Predicate name args] None e 1) <$> es) ++ kids) solutions st
      = (Ok (solutions ++ out), st') /\
      List.length out = List.length es + List.length kids /\
      Forall (fun e => read st' e = content) out.
Proof.
  induction kids as [| kid kids IH] using rev_ind;
    intros es fuel solutions st Hkids He0 Hcontent Hes Hfuel.
  - rewrite app_nil_r. rewrite search_loop_finished_roots by (cbn in Hfuel; lia).
    exists (reverse es), st. split; [reflexivity |].
    split; [rewrite length_reverse; cbn; lia |].
    apply Forall_reverse. eapply Forall_impl; [exact Hes |]. cbn. tauto.
  - apply Forall_app in Hkids as [Hkids Hkid]. apply Forall_cons in Hkid as [Hkid _].
    rewrite length_app in Hfuel. cbn in Hfuel.
    destruct fuel as [| fuel]; [lia |].
    cbn [search_loop]. rewrite app_assoc, pop_snoc.
    destruct (step_fact_frame fuel e0 kid
                (((fun e => mkGoal hd [Predicate name args] None e 1) <$> es) ++ kids)
                solutions st Hkid) as (e' & st1 & Hstep & L1 & F1 & He' & Hread); [lia |].
    rewrite Hstep.
    destruct (IH (e' :: es) fuel solutions st1) as (out & st2 & Hrun & Hlen & Hout).
    + exact Hkids.
    + lia.
    + unfold read. rewrite F1 by exact He0. exact Hcontent.
    + constructor; [split; [exact He' | congruence] |].
      eapply Forall_impl; [exact Hes |]. cbn. intros e [Hlt Hc].
      split; [lia |]. unfold read. rewrite F1 by exact Hlt. exact Hc.
    + cbn [List.length]. lia.
    + exists out, st2. split; [exact Hrun |]. split; [| exact Hout].
      rewrite Hlen, length_app. cbn. lia.
Qed.

End GroundQuery.


End Engine.

(** * The properties at concrete inputs

    Numbers are Python integers here; a runtime with nothing registered
    serves where the statement is about every runtime. *)


(** C1 as stated fails: with [p(X) :- q(X). p(b). q(a).] the search
    answers [X = b] before [X = a], the depth-first order being
    [X = a], [X = b]. *)
Lemma search_is_not_depth_first :
  (forall (B : @BuiltinsModule Z) (k : nat),
     run_query (40 + k) B shallow_second (Predicate "p" [Var "X"])
     = Ok [ {[ "X" := Some (atom "b") ]}; {[ "X" := Some (atom "a") ]} ]) /\
  (forall (B : @BuiltinsModule Z) (k : nat),
     run_depth_first (40 + k) B shallow_second (Predicate "p" [Var "X"])
     = Ok [ {[ "X" := Some (atom "a") ]}; {[ "X" := Some (atom "b") ]} ]).
Proof. split; intros B k; vm_compute; reflexivity. Qed.

(** C1's theorem in the search for [p(X)] on [p(X) :- q(X). p(b). q(a).]:
    the first turn leaves the frames of the two clauses of [p], the
    rule's the older; the rule's frame queues the frame of [q(a)], and
    the frame taken next is the pending one of [p(b)]. *)
Lemma search_enumerates_in_queue_order_witness :
  exists (alt older h : @PrologGoal Z) st1,
    step 39 (@bare_runtime Z shallow_second)
      (@root_frame Z (Predicate "p" [Var "X"]) 1) [] [] [∅; ∅]
    = (Ok ([alt; older], []), st1) /\
    g_head alt = Predicate "p" [atom "b"] /\
    search_trace 38 (@bare_runtime Z shallow_second) [alt; older] [] st1 !! 1 = Some h /\
    rev [alt; older] !! 1 = Some h.
Proof.
  eexists _, _, _, _.
  match goal with
  | |- ?turn /\ _ => assert (Hturn : turn) by (vm_compute; reflexivity)
  end.
  split; [exact Hturn |].
  split; [reflexivity |].
  match goal with
  | |- ?taken /\ _ => assert (Htaken : taken) by (vm_compute; reflexivity)
  end.
  split; [exact Htaken |].
  refine (proj1 (proj2 (proj2 (@search_enumerates_in_queue_order Z Z_PyNumber)))
            _ _ _ _ _ 1 _ _ _ Htaken).
  - cbn. lia.
  - repeat constructor.
Defined.

(** The cut turn of C2 with another frame pending: the pending frame is
    gone. *)
Lemma cut_empties_queue_and_resumes_witness :
  step 1 (@bare_runtime Z family) (@root_frame Z (atom "cut") 1)
    [@root_frame Z (Predicate "parent" [Var "X"; Var "Y"]) 2] [] [∅; ∅; ∅]
  = (Ok ([advance (@root_frame Z (atom "cut") 1)], []), [∅; ∅; ∅] : list (gmap string (option (@Term Z)))).
Proof.
  apply (proj1 (@cut_empties_queue_and_resumes Z Z_PyNumber)) with (pred := atom "cut");
    reflexivity.
Defined.

(** C3 as stated fails: [f(X,X)] unifies with [f(a,b)], a source
    variable matching anything, but [f(a,b)] does not unify with
    [f(X,X)], where [X] is bound to [a] and then compared with [b]. *)
Lemma _unify_is_not_symmetric :
  (forall (B : @BuiltinsModule Z) (k : nat),
     unify_empty (10 + k) (PrologRuntime_init B (db_of []))
       (Predicate "f" [Var "X"; Var "X"]) (Predicate "f" [atom "a"; atom "b"]) = Ok true) /\
  (forall (B : @BuiltinsModule Z) (k : nat),
     unify_empty (10 + k) (PrologRuntime_init B (db_of []))
       (Predicate "f" [atom "a"; atom "b"]) (Predicate "f" [Var "X"; Var "X"]) = Ok false).
Proof. split; intros B k; vm_compute; reflexivity. Qed.

(** C3's theorem on [parent(tom, X)] and [parent(tom, bob)], which
    unify both ways, and on [f(X, a)] and [f(b, c)], which do not. *)
Lemma _unify_symmetric_on_inert_terms_witness :
  (unify_empty 10 (@bare_runtime Z [])
     (Predicate "parent" [atom "tom"; Var "X"])
     (Predicate "parent" [atom "tom"; atom "bob"]) = Ok true /\
   unify_empty 10 (@bare_runtime Z [])
     (Predicate "parent" [atom "tom"; atom "bob"])
     (Predicate "parent" [atom "tom"; Var "X"]) = Ok true) /\
  (unify_empty 10 (@bare_runtime Z [])
     (Predicate "f" [Var "X"; atom "a"]) (Predicate "f" [atom "b"; atom "c"]) = Ok false /\
   unify_empty 10 (@bare_runtime Z [])
     (Predicate "f" [atom "b"; atom "c"]) (Predicate "f" [Var "X"; atom "a"]) = Ok false).
Proof.
  split.
  - apply (@_unify_symmetric_on_inert_terms Z Z_PyNumber (@bare_runtime Z [])
             (Predicate "parent" [atom "tom"; Var "X"])
             (Predicate "parent" [atom "tom"; atom "bob"])).
    + intros x y. apply Z.eqb_sym.
    + reflexivity.
    + reflexivity.
    + reflexivity.
    + cbn. lia.
  - apply (@_unify_symmetric_on_inert_terms Z Z_PyNumber (@bare_runtime Z [])
             (Predicate "f" [Var "X"; atom "a"]) (Predicate "f" [atom "b"; atom "c"])).
    + intros x y. apply Z.eqb_sym.
    + reflexivity.
    + reflexivity.
    + reflexivity.
    + cbn. lia.
Defined.

(** C5 as stated fails: each argument of [*(a, b, c)] evaluates to
    itself, and the term evaluates to [None], not to the predicate
    rebuilt from the arguments. *)
Lemma binary_operator_of_other_arity_is_None :
  (forall (B : @BuiltinsModule Z) (k : nat),
     eval_args (fun arg => prolog_eval (2 + k) (PrologRuntime_init B (db_of [])) arg ∅)
       [atom "a"; atom "b"; atom "c"] []
     = Ok (Some [atom "a"; atom "b"; atom "c"])) /\
  (forall (B : @BuiltinsModule Z) (k : nat),
     prolog_eval (3 + k) (PrologRuntime_init B (db_of []))
       (Predicate "*" [atom "a"; atom "b"; atom "c"]) ∅ = Ok None).
Proof. split; intros B k; vm_compute; reflexivity. Qed.

Lemma prolog_eval_binary_operator_wrong_arity_witness :
  prolog_eval 1 (@bare_runtime Z [])
    (Predicate "mod" [NumberLiteral 7%Z]) ∅ = Ok None.
Proof.
  apply (@prolog_eval_binary_operator_wrong_arity Z Z_PyNumber).
  - eexists. reflexivity.
  - cbn. lia.
  - intros [_ [u Hu]]. discriminate Hu.
Defined.

(** A failing unification of C6: [f(a, b)] against [f(X, X)] binds [X]
    in the scratch copy (object 2) and fails on the second argument; the
    destination (object 1) is still empty. *)
Lemma _unify_failure_leaves_destEnv_witness :
  exists st',
    _unify 10 (@bare_runtime Z []) (Predicate "f" [atom "a"; atom "b"]) 0
      (Predicate "f" [Var "X"; Var "X"]) 1 [∅; ∅] = (Ok false, st') /\
    st' !! 2 = Some {[ "X" := Some (atom "a") ]} /\
    st' !! 1 = [∅; ∅] !! 1.
Proof.
  eexists. split; [vm_compute; reflexivity |].
  split; [vm_compute; reflexivity |].
  eapply (@_unify_failure_leaves_destEnv Z Z_PyNumber 10 (@bare_runtime Z [])
            (Predicate "f" [atom "a"; atom "b"]) (Predicate "f" [Var "X"; Var "X"]) 0 1).
  - cbn. lia.
  - vm_compute. reflexivity.
Defined.

(** C7 as stated fails.  Among the goals the search for
    [grandparent(tom, Z)] considers, the fifth is the frame of
    [parent(bob,ann)], finished, and the sixth is its sibling, the
    pending alternative [parent(bob,pat)]; the continuation of the
    fifth, the rule's frame advanced to its end, comes seventh, after
    the alternative. *)
Lemma continuation_runs_after_pending_alternative :
  exists t0 t1 t2 rule older alt cont rest,
    (forall B : @BuiltinsModule Z,
       search_considered 40 (PrologRuntime_init B (db_of family))
         (query (Predicate "grandparent" [atom "tom"; Var "Z"])) 0 [∅]
       = t0 :: t1 :: t2 :: rule :: older :: alt :: cont :: rest) /\
    g_head older = Predicate "parent" [atom "bob"; atom "ann"] /\
    List.length (g_terms older) <= g_inx older /\
    g_parent older = Some rule /\
    g_head alt = Predicate "parent" [atom "bob"; atom "pat"] /\
    g_parent alt = Some rule /\
    g_head cont = g_head rule /\ g_terms cont = g_terms rule /\ g_inx cont = g_inx rule + 1.
Proof.
  eexists _, _, _, _, _, _, _, _.
  split; [intros B; vm_compute; reflexivity |].
  vm_compute. repeat split. lia.
Qed.

(** C7's theorem on a finished frame of [parent(tom,bob)] with the
    frame of [parent(bob,ann)] pending: the pending frame is taken
    next, then the continuation, the root frame's copy advanced by one. *)
Lemma completion_waits_behind_pending_witness :
  exists (cont : @PrologGoal Z),
    search_trace 6 (@bare_runtime Z family)
      ([mkGoal (Predicate "parent" [atom "bob"; atom "ann"]) []
          (Some (@root_frame Z (Predicate "parent" [Var "X"; Var "Y"]) 1)) 3 0]
       ++ [mkGoal (Predicate "parent" [atom "tom"; atom "bob"]) []
             (Some (@root_frame Z (Predicate "parent" [Var "X"; Var "Y"]) 1)) 2 0])
      [] [∅; ∅; ∅; ∅] !! 2 = Some cont /\
    g_head cont = atom "query" /\
    g_terms cont = [Predicate "parent" [Var "X"; Var "Y"]] /\
    g_inx cont = 0 + 1.
Proof.
  eexists.
  match goal with
  | |- ?taken /\ _ => assert (Htaken : taken) by (vm_compute; reflexivity)
  end.
  split; [exact Htaken |].
  refine (proj1 (proj2 (proj2 (@completion_waits_behind_pending Z Z_PyNumber 5
            (@bare_runtime Z family)
            (mkGoal (Predicate "parent" [atom "tom"; atom "bob"]) []
               (Some (@root_frame Z (Predicate "parent" [Var "X"; Var "Y"]) 1)) 2 0)
            (@root_frame Z (Predicate "parent" [Var "X"; Var "Y"]) 1)
            [mkGoal (Predicate "parent" [atom "bob"; atom "ann"]) []
               (Some (@root_frame Z (Predicate "parent" [Var "X"; Var "Y"]) 1)) 3 0]
            [] [∅; ∅; ∅; ∅] _ eq_refl _))) _ Htaken).
  - cbn. lia.
  - repeat constructor.
Defined.

(** C8 on the family database with three assertions, one of them for
    another name. *)
Lemma lookup_database_then_overlay_witness :
  LogicDB_lookup
    (foldl (fun d mc => LogicDB_store d mc.1 mc.2) [] (map (fun c => ("kb", c)) (@family Z)))
    "parent"
    (Some (foldl LogicDBOverlay_assertz LogicDBOverlay_init
             [fact "parent" [atom "ann"; atom "joe"];
              fact "likes" [atom "joe"; atom "ann"];
              fact "parent" [atom "pat"; atom "jim"]]))
  = (Ok [fact "parent" [atom "tom"; atom "bob"];
         fact "parent" [atom "bob"; atom "ann"];
         fact "parent" [atom "bob"; atom "pat"];
         fact "parent" [atom "ann"; atom "joe"];
         fact "parent" [atom "pat"; atom "jim"]],
     foldl (fun d mc => LogicDB_store d mc.1 mc.2) [] (map (fun c => ("kb", c)) (@family Z))).
Proof.
  exact (@lookup_database_then_overlay Z [] LogicDBOverlay_init
           (map (fun c => ("kb", c)) (@family Z))
           [fact "parent" [atom "ann"; atom "joe"];
            fact "likes" [atom "joe"; atom "ann"];
            fact "parent" [atom "pat"; atom "jim"]]
           "parent" eq_refl).
Defined.

(** C9 on a caller's environment that binds [X]: the solutions extend
    it, the object itself is as it was. *)
Lemma search_leaves_caller_env_witness :
  solutions_of (search 40 (@bare_runtime Z family)
                  (query (Predicate "parent" [Var "X"; Var "Y"])) 0
                  [ {[ "X" := Some (atom "bob") ]} ])
  = Ok [ {[ "X" := Some (atom "bob"); "Y" := Some (atom "ann") ]};
         {[ "X" := Some (atom "bob"); "Y" := Some (atom "pat") ]} ] /\
  (search 40 (@bare_runtime Z family)
     (query (Predicate "parent" [Var "X"; Var "Y"])) 0
     [ {[ "X" := Some (atom "bob") ]} ]).2 !! 0
  = [ ({[ "X" := Some (atom "bob") ]} : gmap string (option (@Term Z))) ] !! 0.
Proof.
  split; [vm_compute; reflexivity |].
  apply (@search_leaves_caller_env Z Z_PyNumber). cbn. lia.
Defined.

(** C10 on [parent(tom)]: the name has three clauses, all of arity 2.
    The turn changes nothing and the query has no solution. *)
Lemma step_arity_mismatch_is_silent_witness :
  step 5 (@bare_runtime Z family) (@root_frame Z (Predicate "parent" [atom "tom"]) 1)
    [] [] [∅; ∅]
  = (Ok ([], []), [∅; ∅] : list (gmap string (option (@Term Z)))) /\
  (forall (B : @BuiltinsModule Z) (k : nat),
     run_query (40 + k) B family (Predicate "parent" [atom "tom"]) = Ok []).
Proof.
  split; [| intros B k; vm_compute; reflexivity].
  eapply (@step_arity_mismatch_is_silent Z Z_PyNumber) with
    (name := "parent") (args := [atom "tom"]).
  - reflexivity.
  - set_solver.
  - reflexivity.
  - vm_compute. reflexivity.
  - discriminate.
  - repeat constructor; cbn; lia.
Defined.

(** * The further properties at concrete inputs *)

Lemma _unify_writes_only_destEnv_witness :
  List.length [(∅ : gmap string (option (@Term Z))); {[ "Z" := Some (atom "c") ]}; ∅]
  <= List.length
       (_unify 10 (@bare_runtime Z []) (Predicate "f" [atom "a"; atom "b"]) 1
          (Predicate "f" [Var "X"; Var "Y"]) 2 [∅; {[ "Z" := Some (atom "c") ]}; ∅]).2 /\
  forall l, l < List.length
                  [(∅ : gmap string (option (@Term Z))); {[ "Z" := Some (atom "c") ]}; ∅] ->
    l <> 2 ->
    (_unify 10 (@bare_runtime Z []) (Predicate "f" [atom "a"; atom "b"]) 1
       (Predicate "f" [Var "X"; Var "Y"]) 2 [∅; {[ "Z" := Some (atom "c") ]}; ∅]).2 !! l
    = [(∅ : gmap string (option (@Term Z))); {[ "Z" := Some (atom "c") ]}; ∅] !! l.
Proof. apply (@_unify_writes_only_destEnv Z Z_PyNumber). cbn. lia. Defined.

Lemma _unify_keeps_destEnv_keys_witness :
  is_Some
    (read (_unify 10 (@bare_runtime Z []) (Predicate "f" [atom "a"]) 0
             (Predicate "f" [Var "X"]) 1 [∅; {[ "Y" := Some (atom "c") ]}]).2 1 !! "Y").
Proof.
  apply (@_unify_keeps_destEnv_keys Z Z_PyNumber).
  - cbn. lia.
  - exists (Some (atom "c")). reflexivity.
Defined.

Lemma _unify_decides_equality_of_ground_terms_witness :
  exists st',
    _unify 12 (@bare_runtime Z [])
      (Predicate "f" [atom "a"; ListLiteral [NumberLiteral 1%Z; Var "X"]]) 0
      (Predicate "f" [atom "a"; ListLiteral [NumberLiteral 1%Z; Var "X"]]) 1
      [∅; {[ "Y" := Some (atom "c") ]}]
    = (Ok (term_eqb (Predicate "f" [atom "a"; ListLiteral [NumberLiteral 1%Z; Var "X"]])
                    (Predicate "f" [atom "a"; ListLiteral [NumberLiteral 1%Z; Var "X"]])), st') /\
    List.length [(∅ : gmap string (option (@Term Z))); {[ "Y" := Some (atom "c") ]}]
    <= List.length st' /\
    forall l, l < List.length [(∅ : gmap string (option (@Term Z))); {[ "Y" := Some (atom "c") ]}] ->
      st' !! l = [(∅ : gmap string (option (@Term Z))); {[ "Y" := Some (atom "c") ]}] !! l.
Proof.
  apply (@_unify_decides_equality_of_ground_terms Z Z_PyNumber);
    try reflexivity; cbn; lia.
Defined.

Lemma prolog_eval_result_is_fixed_point_witness :
  prolog_eval 7 (@bare_runtime Z [])
    (Predicate "f" [atom "a"; NumberLiteral 3%Z]) ∅
  = Ok (Some (Predicate "f" [atom "a"; NumberLiteral 3%Z])).
Proof.
  apply (@prolog_eval_result_is_fixed_point Z Z_PyNumber (@bare_runtime Z [])) with
    (fuel := 5)
    (t := Predicate "f" [Var "X"; Predicate "+" [NumberLiteral 1%Z; NumberLiteral 2%Z]])
    (env := {[ "X" := Some (atom "a") ]}).
  - intros name fn t env ev v Hfn. cbn in Hfn. rewrite lookup_empty in Hfn. discriminate.
  - vm_compute. reflexivity.
  - lia.
Defined.

Lemma self_binding_never_evaluates_witness :
  (forall fuel : nat,
     prolog_eval fuel (@bare_runtime Z []) (Var "X") {[ "X" := Some (Var "X") ]} = Timeout) /\
  (forall (fuel : nat) (dest : @Term Z) (srcEnv destEnv : nat) st,
     read st srcEnv = {[ "X" := Some (Var "X") ]} ->
     _unify fuel (@bare_runtime Z []) (Var "X") srcEnv dest destEnv st = (Timeout, st)).
Proof. apply (@self_binding_never_evaluates Z Z_PyNumber). reflexivity. Defined.

(** [/(a, /(1, 0))] is [None]; its second operand alone raises. *)
Lemma binary_operator_stops_at_first_operand_witness :
  prolog_eval 5 (@bare_runtime Z [])
    (Predicate "/" [atom "a"; Predicate "/" [NumberLiteral 1%Z; NumberLiteral 0%Z]]) ∅
  = Ok None /\
  prolog_eval 4 (@bare_runtime Z [])
    (Predicate "/" [NumberLiteral 1%Z; NumberLiteral 0%Z]) ∅
  = Raise ZeroDivisionError.
Proof.
  split; [| reflexivity].
  apply (@binary_operator_stops_at_first_operand Z Z_PyNumber) with (v := Some (atom "a")).
  - eexists. reflexivity.
  - reflexivity.
  - intros x. discriminate.
Defined.

Lemma undefined_predicate_raises_witness :
  search 2 (@bare_runtime Z family)
    (query (Predicate "sibling" [atom "ann"; Var "X"])) 0 [∅]
  = (Raise (PrologRuntimeError "Failed to find predicate"), [∅; ∅]).
Proof.
  change (search 2 (@bare_runtime Z family)
            (mkClause "query" [] (Some (Predicate "sibling" [atom "ann"; Var "X"]))) 0 [∅]
          = (Raise (PrologRuntimeError "Failed to find predicate"), [∅] ++ [read [∅] 0])).
  apply (proj2 (@undefined_predicate_raises Z Z_PyNumber)).
  - rewrite !elem_of_cons. intros [H | [H | [H | [H | H]]]]; try discriminate H.
    inversion H.
  - reflexivity.
  - reflexivity.
Defined.

Lemma search_returns_objects_of_its_own_witness :
  exists out st',
    search 40 (@bare_runtime Z family)
      (query (Predicate "parent" [Var "X"; Var "Y"])) 0
      [ {[ "X" := Some (atom "bob") ]} ] = (Ok out, st') /\
    List.length out = 2 /\
    Forall (fun l => List.length [ ({[ "X" := Some (atom "bob") ]}
                                     : gmap string (option (@Term Z))) ] <= l
                     < List.length st') out.
Proof.
  eexists _, _.
  match goal with
  | |- ?run /\ _ => assert (Hrun : run) by (vm_compute; reflexivity)
  end.
  split; [exact Hrun |]. split; [reflexivity |].
  exact (@search_returns_objects_of_its_own Z Z_PyNumber _ _ _ _ _ _ _ Hrun).
Defined.

(** The overlay of three assertions, gone through in the reverse of the
    order the map lists it in. *)
Lemma clone_holds_the_same_clauses_witness :
  exists clone,
    LogicDBOverlay_clone_in
      (reverse (map_to_list (d_assertz
         (foldl LogicDBOverlay_assertz LogicDBOverlay_init
            [@fact Z "parent" [atom "ann"; atom "joe"];
             fact "likes" [atom "joe"; atom "ann"];
             fact "parent" [atom "pat"; atom "jim"]]))))
      (map_to_list (d_retracted
         (foldl LogicDBOverlay_assertz LogicDBOverlay_init
            [@fact Z "parent" [atom "ann"; atom "joe"];
             fact "likes" [atom "joe"; atom "ann"];
             fact "parent" [atom "pat"; atom "jim"]])))
    = Ok clone /\
    (forall n, asserted clone n
               = asserted (foldl LogicDBOverlay_assertz LogicDBOverlay_init
                             [@fact Z "parent" [atom "ann"; atom "joe"];
                              fact "likes" [atom "joe"; atom "ann"];
                              fact "parent" [atom "pat"; atom "jim"]]) n) /\
    d_retracted clone = ∅ /\
    (forall d n,
       LogicDB_lookup d n (Some clone)
       = LogicDB_lookup d n
           (Some (foldl LogicDBOverlay_assertz LogicDBOverlay_init
                    [@fact Z "parent" [atom "ann"; atom "joe"];
                     fact "likes" [atom "joe"; atom "ann"];
                     fact "parent" [atom "pat"; atom "jim"]]))).
Proof.
  apply (@clone_holds_the_same_clauses Z).
  - repeat apply well_keyed_assertz. apply well_keyed_init.
  - reflexivity.
  - apply reverse_Permutation.
Defined.

Lemma lookup_after_store_overlayZ_witness :
  (LogicDB_lookup
     (LogicDB_store_overlayZ_in (db_of (@family Z)) "kb"
        (reverse (map_to_list (d_assertz
           (foldl LogicDBOverlay_assertz LogicDBOverlay_init
              [@fact Z "parent" [atom "ann"; atom "joe"];
               fact "likes" [atom "joe"; atom "ann"];
               fact "parent" [atom "pat"; atom "jim"]])))))
     "parent" None).1
  = (LogicDB_lookup (db_of (@family Z)) "parent"
       (Some (foldl LogicDBOverlay_assertz LogicDBOverlay_init
                [@fact Z "parent" [atom "ann"; atom "joe"];
                 fact "likes" [atom "joe"; atom "ann"];
                 fact "parent" [atom "pat"; atom "jim"]]))).1.
Proof.
  apply (@lookup_after_store_overlayZ Z).
  - repeat apply well_keyed_assertz. apply well_keyed_init.
  - reflexivity.
  - apply reverse_Permutation.
Defined.

Lemma _unify_binds_destination_variable_witness :
  _unify 6 (@bare_runtime Z []) (Predicate "f" [atom "a"; NumberLiteral 1%Z]) 0 (Var "X") 1
    [∅; {[ "Y" := Some (atom "c") ]}]
  = (Ok true,
     write 1 (<[ "X" := Some (Predicate "f" [atom "a"; NumberLiteral 1%Z]) ]>
                (read [∅; {[ "Y" := Some (atom "c") ]}] 1))
       [∅; {[ "Y" := Some (atom "c") ]}]) /\
  prolog_eval 6 (@bare_runtime Z []) (Var "X")
    (<[ "X" := Some (Predicate "f" [atom "a"; NumberLiteral 1%Z]) ]>
       (read [∅; {[ "Y" := Some (atom "c") ]}] 1))
  = Ok (Some (Predicate "f" [atom "a"; NumberLiteral 1%Z])).
Proof.
  apply (@_unify_binds_destination_variable Z Z_PyNumber); try reflexivity. cbn. lia.
Defined.

